(** * GrammaticalAnalyzer: the LL(1) analyser of Demo_02.cpp

    A shallow embedding of [class LL1Parser] (Demo_02/Demo_02.cpp): grammar
    loading, the FIRST and FOLLOW fixed points, the construction of the
    predictive table and the table-driven parser, followed by the properties
    of the analyser that the specification states.

    Conventions of the embedding:
    - [std::set<string>] is a [gset string], [std::map] a [gmap];
    - a member function is a function from the parser object to its result
      and the updated object;
    - [std::map::operator[]] default-constructs a missing entry: reading
      [firstSet[k]] is [index_firstSet], which returns the stored set and
      the object with the entry created;
    - a [while] loop whose number of iterations is not bounded by its
      arguments takes a bound [fuel] and returns [None] when it is exhausted;
    - [int] is [Z] (no arithmetic is performed on line numbers). *)

From Stdlib Require Import Ascii.
From stdpp Require Import gmap strings list fin_maps fin_sets pretty.


(** ** Data model (Demo_02.cpp, lines 11-28) *)

Record Token := mkToken {
  line : Z;
  type : string;
  value : string
}.

Record GrammarRule := mkRule {
  lhs : string;
  rhs : list string
}.

#[global] Instance Token_eq_dec : EqDecision Token.
Proof. solve_decision. Defined.

#[global] Instance GrammarRule_eq_dec : EqDecision GrammarRule.
Proof. solve_decision. Defined.

Record LL1Parser := mkParser {
  grammar : list GrammarRule;
  terminals : gset string;
  nonTerminals : gset string;
  firstSet : gmap string (gset string);
  followSet : gmap string (gset string);
  parseTable : gmap (string * string) GrammarRule;
  startSymbol : string
}.

(** The object that [LL1Parser parser;] declares in [main]. *)
Definition newParser : LL1Parser :=
  mkParser [] ∅ ∅ ∅ ∅ ∅ "".

Definition set_grammar (f : list GrammarRule → list GrammarRule) (p : LL1Parser) :=
  mkParser (f (grammar p)) (terminals p) (nonTerminals p) (firstSet p)
           (followSet p) (parseTable p) (startSymbol p).
Definition set_terminals (f : gset string → gset string) (p : LL1Parser) :=
  mkParser (grammar p) (f (terminals p)) (nonTerminals p) (firstSet p)
           (followSet p) (parseTable p) (startSymbol p).
Definition set_nonTerminals (f : gset string → gset string) (p : LL1Parser) :=
  mkParser (grammar p) (terminals p) (f (nonTerminals p)) (firstSet p)
           (followSet p) (parseTable p) (startSymbol p).
Definition set_firstSet
    (f : gmap string (gset string) → gmap string (gset string)) (p : LL1Parser) :=
  mkParser (grammar p) (terminals p) (nonTerminals p) (f (firstSet p))
           (followSet p) (parseTable p) (startSymbol p).
Definition set_followSet
    (f : gmap string (gset string) → gmap string (gset string)) (p : LL1Parser) :=
  mkParser (grammar p) (terminals p) (nonTerminals p) (firstSet p)
           (f (followSet p)) (parseTable p) (startSymbol p).
Definition set_parseTable
    (f : gmap (string * string) GrammarRule → gmap (string * string) GrammarRule)
    (p : LL1Parser) :=
  mkParser (grammar p) (terminals p) (nonTerminals p) (firstSet p)
           (followSet p) (f (parseTable p)) (startSymbol p).
Definition set_startSymbol (s : string) (p : LL1Parser) :=
  mkParser (grammar p) (terminals p) (nonTerminals p) (firstSet p)
           (followSet p) (parseTable p) s.

(** The two pseudo-symbols, spelled as in the source. *)
Definition epsilon : string := "epsilon".
Definition endMarker : string := "$".

(** ** [std::map<string, set<string>>::operator[]] *)

(** The set stored under [k], empty when there is no entry. *)
Definition stored (m : gmap string (gset string)) (k : string) : gset string :=
  default ∅ (m !! k).

(** The map after [m[k]] was evaluated: a missing entry now exists. *)
Definition touch (m : gmap string (gset string)) (k : string) :
    gmap string (gset string) :=
  <[k := stored m k]> m.

Definition index_firstSet (p : LL1Parser) (k : string) : gset string * LL1Parser :=
  (stored (firstSet p) k, set_firstSet (λ m, touch m k) p).

Definition index_followSet (p : LL1Parser) (k : string) : gset string * LL1Parser :=
  (stored (followSet p) k, set_followSet (λ m, touch m k) p).

(** The FIRST and FOLLOW sets an object holds for a symbol. *)
Definition FIRST (p : LL1Parser) (k : string) : gset string := stored (firstSet p) k.
Definition FOLLOW (p : LL1Parser) (k : string) : gset string := stored (followSet p) k.

(** ** Reading the grammar (lines 45-71) *)

(** [isspace] and [isupper] of the "C" locale, on the code of the
    character. *)
Definition isspace (c : ascii) : bool :=
  let n := N_of_ascii c in
  (n =? 32)%N || ((9 <=? n)%N && (n <=? 13)%N).

Definition isupper (c : ascii) : bool :=
  let n := N_of_ascii c in
  (65 <=? n)%N && (n <=? 90)%N.

(** [isupper(sym[0])]; [sym[0]] of an empty [std::string] is the null
    character. *)
Definition isupper0 (sym : string) : bool :=
  match sym with
  | "" => false
  | String c _ => isupper c
  end.

(** [while (ss >> token) out.push_back(token)]: [token] collects the
    characters of the current word, [s] is what is left of the stream. *)
Fixpoint split_from (s : string) (token : string) (out : list string) : list string :=
  match s with
  | "" => if decide (token = "") then out else out ++ [token]
  | String c s' =>
      if isspace c
      then split_from s' "" (if decide (token = "") then out else out ++ [token])
      else split_from s' (token +:+ String c "") out
  end.

Definition split (line : string) (out : list string) : list string :=
  split_from line "" out.

(** The successive results of [getline(infile, line)] on a file of contents
    [s]; [cur] collects the current line. *)
Fixpoint getlines_from (s : string) (cur : string) : list string :=
  match s with
  | "" => if decide (cur = "") then [] else [cur]
  | String c s' =>
      if decide (c = "010"%char)
      then cur :: getlines_from s' ""
      else getlines_from s' (cur +:+ String c "")
  end.

Definition getlines (contents : string) : list string := getlines_from contents "".

(** Lines 58-61: the classification of the right-hand side symbols. *)
Definition classify (sym : string) (p : LL1Parser) : LL1Parser :=
  if negb (isupper0 sym)
  then set_terminals (λ t, {[sym]} ∪ t) p
  else set_nonTerminals (λ n, {[sym]} ∪ n) p.

(** Lines 56-62, for a rule that passed the test of line 52. *)
Definition addRule (rule : GrammarRule) (p : LL1Parser) : LL1Parser :=
  let p := set_grammar (λ g, g ++ [rule]) p in
  let p := set_nonTerminals (λ n, {[lhs rule]} ∪ n) p in
  let p := foldl (λ p sym, classify sym p) p (rhs rule) in
  if decide (startSymbol p = "") then set_startSymbol (lhs rule) p else p.

(** Lines 49-55: the rule a line holds.  The test [parts.size() < 3 ||
    parts[1] != "->"] fails exactly when [parts] has a first element, the
    arrow as its second, and a non-empty rest, which line 55 copies. *)
Definition ruleOfLine (line : string) : option GrammarRule :=
  if decide (line = "") then None
  else match split line [] with
       | l :: arrow :: sym :: symbols =>
           if decide (arrow = "->") then Some (mkRule l (sym :: symbols)) else None
       | _ => None
       end.

(** The body of the [while (getline ...)] loop. *)
Definition loadLine (p : LL1Parser) (line : string) : LL1Parser :=
  match ruleOfLine line with
  | Some rule => addRule rule p
  | None => p
  end.

(** [loadGrammar] on a file whose contents are [contents] (a file that
    cannot be opened yields no line, like the empty contents). *)
Definition loadGrammar (contents : string) (p : LL1Parser) : LL1Parser :=
  foldl loadLine p (getlines contents).

(** ** FIRST sets (lines 73-109) *)

Definition isTerminal (p : LL1Parser) (symbol : string) : bool :=
  bool_decide (symbol ∈ terminals p).

(** The [for] loop of [computeFirstOf], [first] being the local set. *)
Fixpoint computeFirstOf_loop (symbols : list string) (first : gset string)
    (p : LL1Parser) : gset string * LL1Parser :=
  match symbols with
  | [] => (first, p)
  | symbol :: symbols' =>
      if isTerminal p symbol then ({[symbol]} ∪ first, p)
      else
        let '(firstOfNonTerminal, p) := index_firstSet p symbol in
        let first := first ∪ firstOfNonTerminal in
        if decide (epsilon ∈ firstOfNonTerminal)
        then computeFirstOf_loop symbols' first p
        else (first, p)
  end.

Definition computeFirstOf (symbols : list string) (p : LL1Parser) :
    gset string * LL1Parser :=
  computeFirstOf_loop symbols ∅ p.

(** Lines 101-106: the body of the loop over the rules. *)
Definition computeFirst_rule (rule : GrammarRule) (p : LL1Parser) :
    LL1Parser * bool :=
  let '(firstOfLHS, p) := index_firstSet p (lhs rule) in
  let '(firstOfRHS, p) := computeFirstOf (rhs rule) p in
  let oldSize := size firstOfLHS in
  let firstOfLHS := firstOfLHS ∪ firstOfRHS in
  let p := set_firstSet (λ m, <[lhs rule := firstOfLHS]> m) p in
  (p, bool_decide (oldSize < size firstOfLHS)).

(** Lines 100-107: one pass over [rules], [changed] being the flag. *)
Fixpoint computeFirst_rules (rules : list GrammarRule) (p : LL1Parser)
    (changed : bool) : LL1Parser * bool :=
  match rules with
  | [] => (p, changed)
  | rule :: rules' =>
      let '(p, grew) := computeFirst_rule rule p in
      computeFirst_rules rules' p (if grew then true else changed)
  end.

Definition computeFirst_pass (p : LL1Parser) : LL1Parser * bool :=
  computeFirst_rules (grammar p) p false.

(** [computeFirst]: at most [fuel] passes. *)
Fixpoint computeFirst (fuel : nat) (p : LL1Parser) : option LL1Parser :=
  match fuel with
  | 0 => None
  | S fuel' =>
      let '(p, changed) := computeFirst_pass p in
      if changed then computeFirst fuel' p else Some p
  end.

(** ** FOLLOW sets (lines 111-153) *)

(** Lines 117-132: the loop over the positions of one rule.  [symbols] is
    what is left of [rule.rhs] from position [i] on, so that its tail is the
    suffix [rule.rhs.begin() + i + 1 .. rule.rhs.end()] and [i + 1 <
    rule.rhs.size()] says that this tail is not empty. *)
Fixpoint computeFollowOf_rhs (nonTerminal ruleLhs : string) (symbols : list string)
    (follow : gset string) (p : LL1Parser) : gset string * LL1Parser :=
  match symbols with
  | [] => (follow, p)
  | sym :: suffix =>
      if decide (sym = nonTerminal) then
        match suffix with
        | _ :: _ =>
            let '(firstOfNext, p) := computeFirstOf suffix p in
            let follow := follow ∪ firstOfNext in
            if decide (epsilon ∈ firstOfNext) then
              let '(followOfLHS, p) := index_followSet p ruleLhs in
              computeFollowOf_rhs nonTerminal ruleLhs suffix (follow ∪ followOfLHS) p
            else computeFollowOf_rhs nonTerminal ruleLhs suffix follow p
        | [] =>
            let '(followOfLHS, p) := index_followSet p ruleLhs in
            computeFollowOf_rhs nonTerminal ruleLhs suffix (follow ∪ followOfLHS) p
        end
      else computeFollowOf_rhs nonTerminal ruleLhs suffix follow p
  end.

(** Lines 116-133: the loop over the rules. *)
Fixpoint computeFollowOf_rules (nonTerminal : string) (rules : list GrammarRule)
    (follow : gset string) (p : LL1Parser) : gset string * LL1Parser :=
  match rules with
  | [] => (follow, p)
  | rule :: rules' =>
      let '(follow, p) :=
        computeFollowOf_rhs nonTerminal (lhs rule) (rhs rule) follow p in
      computeFollowOf_rules nonTerminal rules' follow p
  end.

Definition computeFollowOf (nonTerminal : string) (p : LL1Parser) :
    gset string * LL1Parser :=
  let follow : gset string :=
    if decide (nonTerminal = startSymbol p) then {[endMarker]} else ∅ in
  computeFollowOf_rules nonTerminal (grammar p) follow p.

(** Lines 144-149, for the symbol [sym = rule.rhs[i]]. *)
Definition computeFollow_symbol (sym : string) (p : LL1Parser) : LL1Parser * bool :=
  if decide (sym ∈ nonTerminals p) then
    let '(followOfRHS, p) := computeFollowOf sym p in
    let '(current, p) := index_followSet p sym in
    let oldSize := size current in
    let p := set_followSet (λ m, <[sym := stored m sym ∪ followOfRHS]> m) p in
    (p, bool_decide (oldSize < size (FOLLOW p sym)))
  else (p, false).

(** Lines 143-150: the loop over the positions of one rule. *)
Fixpoint computeFollow_rhs (symbols : list string) (p : LL1Parser)
    (changed : bool) : LL1Parser * bool :=
  match symbols with
  | [] => (p, changed)
  | sym :: symbols' =>
      let '(p, grew) := computeFollow_symbol sym p in
      computeFollow_rhs symbols' p (if grew then true else changed)
  end.

(** Lines 142-151: one pass over [rules]. *)
Fixpoint computeFollow_rules (rules : list GrammarRule) (p : LL1Parser)
    (changed : bool) : LL1Parser * bool :=
  match rules with
  | [] => (p, changed)
  | rule :: rules' =>
      let '(p, changed) := computeFollow_rhs (rhs rule) p changed in
      computeFollow_rules rules' p changed
  end.

Definition computeFollow_pass (p : LL1Parser) : LL1Parser * bool :=
  computeFollow_rules (grammar p) p false.

(** [computeFollow]: at most [fuel] passes. *)
Fixpoint computeFollow (fuel : nat) (p : LL1Parser) : option LL1Parser :=
  match fuel with
  | 0 => None
  | S fuel' =>
      let '(p, changed) := computeFollow_pass p in
      if changed then computeFollow fuel' p else Some p
  end.

(** ** The predictive table (lines 155-171) *)

(** [parseTable[{rule.lhs, terminal}] = rule]. *)
Definition setEntry (rule : GrammarRule) (terminal : string) (p : LL1Parser) :
    LL1Parser :=
  set_parseTable (λ t, <[(lhs rule, terminal) := rule]> t) p.

(** Lines 158-169.  The two range-[for] loops go through a [std::set]; every
    iteration stores the same [rule] under a key of its own, so the order in
    which [set_fold] visits the elements does not show in the table. *)
Definition buildParseTable_rule (p : LL1Parser) (rule : GrammarRule) : LL1Parser :=
  let '(firstOfRHS, p) := computeFirstOf (rhs rule) p in
  let p :=
    set_fold (λ terminal p,
                if decide (terminal ≠ epsilon) then setEntry rule terminal p else p)
             p firstOfRHS in
  if decide (epsilon ∈ firstOfRHS) then
    let '(followOfLHS, p) := index_followSet p (lhs rule) in
    set_fold (λ terminal p, setEntry rule terminal p) p followOfLHS
  else p.

Definition buildParseTable (p : LL1Parser) : LL1Parser :=
  foldl buildParseTable_rule p (grammar p).

(** ** The parser (lines 173-214) *)

(** What a call of [parseTokens] does: it returns [result] having written
    [errFile] to the error file (which is taken to open) and [cout] to the
    standard output, or it reads an element that the vector [input] does not
    have, as [input[index - 1]] with [index = 0] at line 202. *)
Inductive ParseResult :=
  | Returned (result : bool) (errFile : string) (cout : string)
  | OutOfBounds.

Inductive Step :=
  | Continue (parseStack : list string) (index : nat)
  | Stop (r : ParseResult).

Definition nl : string := String "010"%char "".

(** Line 195. *)
Definition mismatchMessage (l : Z) (top found : string) : string :=
  "Syntax error at line " +:+ pretty l +:+ ": expected '" +:+ top
    +:+ "' but found '" +:+ found +:+ "'" +:+ nl.

(** Line 202. *)
Definition noEntryMessage (l : Z) (literal : string) : string :=
  "Syntax error at line " +:+ pretty l +:+ ": unexpected token '" +:+ literal
    +:+ "'" +:+ nl.

(** [input[index - 1]]: [index] is a [size_t], so that [index - 1] is the
    largest [size_t] when [index] is 0, which is no position of a vector. *)
Definition previousToken (input : list Token) (index : nat) : option Token :=
  match index with
  | 0 => None
  | S i => input !! i
  end.

(** Lines 208-210, [symbols] being [rule.rhs] from its last to its first
    element; the head of a stack is its top. *)
Fixpoint pushAll (symbols : list string) (parseStack : list string) : list string :=
  match symbols with
  | [] => parseStack
  | sym :: symbols' =>
      pushAll symbols' (if decide (sym ≠ epsilon) then sym :: parseStack else parseStack)
  end.

(** Lines 183-212: the test of the [while] and one round of its body. *)
Definition parseStep (p : LL1Parser) (input : list Token)
    (parseStack : list string) (index : nat) : Step :=
  match parseStack with
  | [] => Stop (Returned false "" "")
  | top :: below =>
      match input !! index with
      | None => Stop OutOfBounds
      | Some tok =>
          let currentToken := type tok in
          if decide (top = "$" ∧ currentToken = "$") then
            Stop (Returned true "" ("YES" +:+ nl))
          else if decide (top = currentToken) then
            Continue below (S index)
          else if isTerminal p top then
            Stop (Returned false (mismatchMessage (line tok) top (value tok))
                           ("NO" +:+ nl))
          else
            match parseTable p !! (top, currentToken) with
            | None =>
                let lineShown :=
                  if decide (line tok < 0)%Z
                  then line <$> previousToken input index
                  else Some (line tok) in
                let valueShown :=
                  if decide (value tok = "$")
                  then value <$> previousToken input index
                  else Some (value tok) in
                match lineShown, valueShown with
                | Some l, Some v =>
                    Stop (Returned false (noEntryMessage l v) ("NO" +:+ nl))
                | _, _ => Stop OutOfBounds
                end
            | Some rule => Continue (pushAll (rev (rhs rule)) below) index
            end
      end
  end.

Fixpoint parseLoop (fuel : nat) (p : LL1Parser) (input : list Token)
    (parseStack : list string) (index : nat) : option ParseResult :=
  match fuel with
  | 0 => None
  | S fuel' =>
      match parseStep p input parseStack index with
      | Stop r => Some r
      | Continue parseStack index => parseLoop fuel' p input parseStack index
      end
  end.

(** The token that line 180 appends. *)
Definition endToken : Token := mkToken (-1) "$" "$".

(** [parseTokens]: at most [fuel] rounds of the loop. *)
Definition parseTokens (fuel : nat) (p : LL1Parser) (tokens : list Token) :
    option ParseResult :=
  let parseStack := startSymbol p :: ["$"] in
  let input := tokens ++ [endToken] in
  parseLoop fuel p input parseStack 0.

(** ** The pipeline of [main] (lines 217-221 and 233)

    [grammarFile] is the contents of the grammar file and [tokens] the
    vector that lines 223-231 build from the token file. *)

Definition computeSets (fuel : nat) (grammarFile : string) : option LL1Parser :=
  p ← computeFirst fuel (loadGrammar grammarFile newParser);
  computeFollow fuel p.

Definition analyse (fuel : nat) (grammarFile : string) : option LL1Parser :=
  p ← computeSets fuel grammarFile;
  Some (buildParseTable p).

Definition run (fuel : nat) (grammarFile : string) (tokens : list Token) :
    option ParseResult :=
  p ← analyse fuel grammarFile;
  parseTokens fuel p tokens.

(** ** Vocabulary of the properties *)

(** *** What a member function leaves alone *)

Definition sameData (p q : LL1Parser) : Prop :=
  grammar q = grammar p ∧ terminals q = terminals p ∧
  nonTerminals q = nonTerminals p ∧ startSymbol q = startSymbol p.

Definition sameFIRST (p q : LL1Parser) : Prop := ∀ k, FIRST q k = FIRST p k.
Definition sameFOLLOW (p q : LL1Parser) : Prop := ∀ k, FOLLOW q k = FOLLOW p k.

(** [q] is [p] up to entries that [operator[]] created. *)
Definition readOnly (p q : LL1Parser) : Prop :=
  sameData p q ∧ sameFIRST p q ∧ sameFOLLOW p q ∧ parseTable q = parseTable p.

(** Every stored FIRST (FOLLOW) set of [p] is within that of [q]. *)
Definition FIRST_le (p q : LL1Parser) : Prop := ∀ k, FIRST p k ⊆ FIRST q k.
Definition FOLLOW_le (p q : LL1Parser) : Prop := ∀ k, FOLLOW p k ⊆ FOLLOW q k.

(** The union of the sets a map stores. *)
Definition storedUnion (m : gmap string (gset string)) : gset string :=
  ⋃ (map_to_list m).*2.

(** *** The iteration of [computeFirst] *)

(** [U] holds whatever a stored FIRST set may ever contain. *)
Definition firstBounded (U : gset string) (p : LL1Parser) : Prop :=
  terminals p ⊆ U ∧ ∀ k, FIRST p k ⊆ U.

(** What the passes of [computeFirst] maintain between two states. *)
Definition firstGrows (U : gset string) (p q : LL1Parser) : Prop :=
  sameData p q ∧ sameFOLLOW p q ∧ parseTable q = parseTable p ∧
  FIRST_le p q ∧ (firstBounded U p → firstBounded U q).

(** The sum, over the rules, of the sizes of the FIRST sets stored for their
    left-hand sides: what a pass that reports a change increases. *)
Definition firstMeasure (p : LL1Parser) : nat :=
  sum_list_with (λ rule, size (FIRST p (lhs rule))) (grammar p).

(** The object after [k] full passes of the [while] loop of [computeFirst]. *)
Fixpoint computeFirst_passes (k : nat) (p : LL1Parser) : LL1Parser :=
  match k with
  | 0 => p
  | S k' => computeFirst_passes k' (computeFirst_pass p).1
  end.

(** The object after [k] full passes and, in the next pass, the rules
    [done], a prefix of the grammar. *)
Definition computeFirst_prefix (k : nat) (done : list GrammarRule)
    (p : LL1Parser) : LL1Parser :=
  (computeFirst_rules done (computeFirst_passes k p) false).1.

(** [firstRun K p q]: from [p], the loop of [computeFirst] makes exactly [K]
    passes, the last of which changes nothing, and leaves [q]. *)
Inductive firstRun : nat → LL1Parser → LL1Parser → Prop :=
  | firstRun_last p q :
      computeFirst_pass p = (q, false) → firstRun 1 p q
  | firstRun_more K p p' q :
      computeFirst_pass p = (p', true) → firstRun K p' q → firstRun (S K) p q.

(** *** The iteration of [computeFollow] *)

(** [U] holds whatever a stored FOLLOW set may ever contain. *)
Definition followBounded (U : gset string) (p : LL1Parser) : Prop :=
  endMarker ∈ U ∧ terminals p ⊆ U ∧ (∀ k, FIRST p k ⊆ U) ∧ (∀ k, FOLLOW p k ⊆ U).

(** What the passes of [computeFollow] maintain between two states. *)
Definition followGrows (U : gset string) (p q : LL1Parser) : Prop :=
  sameData p q ∧ sameFIRST p q ∧ parseTable q = parseTable p ∧
  FOLLOW_le p q ∧ (followBounded U p → followBounded U q).

(** The positions the loops of [computeFollow] visit in a pass. *)
Definition rhsSymbols (p : LL1Parser) : list string := grammar p ≫= rhs.

Definition followMeasure (p : LL1Parser) : nat :=
  sum_list_with (λ sym, size (FOLLOW p sym)) (rhsSymbols p).

(** The object after [k] full passes of the [while] loop of [computeFollow]. *)
Fixpoint computeFollow_passes (k : nat) (p : LL1Parser) : LL1Parser :=
  match k with
  | 0 => p
  | S k' => computeFollow_passes k' (computeFollow_pass p).1
  end.

(** The object after [k] full passes and, in the next pass, the rules [done]
    and the positions [symbols] of the rule that comes after them. *)
Definition computeFollow_prefix (k : nat) (done : list GrammarRule)
    (symbols : list string) (p : LL1Parser) : LL1Parser :=
  (computeFollow_rhs symbols
     (computeFollow_rules done (computeFollow_passes k p) false).1 false).1.

(** The right-hand side the inner loop is in when the rules [rest] are
    still to be visited. *)
Definition currentRhs (rest : list GrammarRule) : list string :=
  match rest with
  | [] => []
  | rule :: _ => rhs rule
  end.

(** [followRun K p q]: from [p], the loop of [computeFollow] makes exactly
    [K] passes, the last of which changes nothing, and leaves [q]. *)
Inductive followRun : nat → LL1Parser → LL1Parser → Prop :=
  | followRun_last p q :
      computeFollow_pass p = (q, false) → followRun 1 p q
  | followRun_more K p p' q :
      computeFollow_pass p = (p', true) → followRun K p' q → followRun (S K) p q.

(** *** The table *)

(** The lookaheads under which [buildParseTable] stores [rule]: those of
    lines 159-163 and, when FIRST of the right-hand side has the epsilon
    marker, those of lines 164-169. *)
Definition tableEntries (p : LL1Parser) (rule : GrammarRule) : gset string :=
  let firstOfRHS := (computeFirstOf (rhs rule) p).1 in
  (firstOfRHS ∖ {[epsilon]}) ∪
  (if decide (epsilon ∈ firstOfRHS) then FOLLOW p (lhs rule) else ∅).

(** [rule] claims the key [(N, t)]. *)
Definition claims (p : LL1Parser) (rule : GrammarRule) (N t : string) : Prop :=
  lhs rule = N ∧ t ∈ tableEntries p rule.

(** [q] has the terminals and the stored sets of [p]. *)
Definition sameSets (p q : LL1Parser) : Prop :=
  terminals q = terminals p ∧ sameFIRST p q ∧ sameFOLLOW p q.

(** [q] is [p] but for its table. *)
Definition tableOnly (p q : LL1Parser) : Prop :=
  sameData p q ∧ firstSet q = firstSet p ∧ followSet q = followSet p.

(** *** The classification of symbols *)

Definition occursOnRhs (p : LL1Parser) (x : string) : Prop :=
  ∃ rule, rule ∈ grammar p ∧ x ∈ rhs rule.

Definition isLhs (p : LL1Parser) (x : string) : Prop :=
  ∃ rule, rule ∈ grammar p ∧ lhs rule = x.

(** What [loadGrammar] puts in the two sets of symbols. *)
Definition classified (p : LL1Parser) : Prop :=
  (∀ x, x ∈ terminals p ↔ occursOnRhs p x ∧ isupper0 x = false) ∧
  (∀ x, x ∈ nonTerminals p ↔ isLhs p x ∨ (occursOnRhs p x ∧ isupper0 x = true)).

(** The classification by left-hand sides: a right-hand side symbol is a
    nonterminal exactly when it is the left-hand side of some rule, and a
    terminal otherwise. *)
Definition classifiedByLhs (p : LL1Parser) : Prop :=
  ∀ x, occursOnRhs p x →
    (x ∈ nonTerminals p ↔ isLhs p x) ∧ (x ∈ terminals p ↔ ¬ isLhs p x).

(** The two sets are disjoint and hold neither of the pseudo-symbols. *)
Definition disjointWithoutMarkers (p : LL1Parser) : Prop :=
  terminals p ## nonTerminals p ∧
  (epsilon ∉ terminals p) ∧ (epsilon ∉ nonTerminals p) ∧
  (endMarker ∉ terminals p) ∧ (endMarker ∉ nonTerminals p).

(** *** The diagnostic of the missing entry *)

(** The round of the loop of [parseTokens] that finds [top] on the stack and
    [tok] at [index] ends at line 202. *)
Definition noEntryCase (p : LL1Parser) (input : list Token) (top : string)
    (index : nat) (tok : Token) : Prop :=
  input !! index = Some tok ∧
  ¬ (top = "$" ∧ type tok = "$") ∧ top ≠ type tok ∧
  isTerminal p top = false ∧ parseTable p !! (top, type tok) = None.

(** The token before [index], and [tok] itself where there is none. *)
Definition tokenBefore (input : list Token) (index : nat) (tok : Token) : Token :=
  default tok (previousToken input index).

(** The two conditional expressions of line 202. *)
Definition shownLine (tok prev : Token) : Z :=
  if decide (line tok < 0)%Z then line prev else line tok.

Definition shownValue (tok prev : Token) : string :=
  if decide (value tok = "$") then value prev else value tok.

(** Tokens such as a tokenizer numbers and spells them. *)
Definition plainToken (tok : Token) : Prop := (0 ≤ line tok)%Z ∧ value tok ≠ "$".

(** The diagnostic that goes by the position of the token: both fields come
    from the previous token exactly when the current token is the appended
    one. *)
Definition messageByPosition (tokens : list Token) (index : nat) (tok : Token) : string :=
  let prev := tokenBefore (tokens ++ [endToken]) index tok in
  if decide (index = length tokens)
  then noEntryMessage (line prev) (value prev)
  else noEntryMessage (line tok) (value tok).

Definition noEntryByPosition : Prop :=
  ∀ p tokens top below index tok,
    noEntryCase p (tokens ++ [endToken]) top index tok →
    parseStep p (tokens ++ [endToken]) (top :: below) index =
      Stop (Returned false (messageByPosition tokens index tok) ("NO" +:+ nl)).

(** *** Grammars and token streams of the examples *)

(** The contents of a file that has the given lines. *)
Definition fileOf (lines : list string) : string := String.concat nl lines.

Definition grammar_S_a : string := fileOf ["S -> a"].

Definition grammar_conflict : string := fileOf ["S -> a"; "S -> a b"].

Definition grammar_nullable : string := fileOf ["S -> A b"; "A -> a"; "A -> epsilon"].

Definition grammar_dollar_rule : string := fileOf ["S -> a"; "$ -> b"].

Definition grammar_S_aB : string := fileOf ["S -> a B"; "B -> b"].

Definition grammar_lowercase : string := fileOf ["a -> a epsilon $"].

Definition grammar_S_A : string := fileOf ["S -> A"].

(** The object [main] holds for [grammar_conflict] when it calls
    [buildParseTable], and the one it holds for [grammar_S_aB] when it calls
    [parseTokens]. *)
Definition sets_conflict : LL1Parser :=
  default newParser (computeSets 4 grammar_conflict).

Definition table_S_aB : LL1Parser :=
  default newParser (analyse 4 grammar_S_aB).

(** ** Vocabulary of the further properties *)

(** *** Words and lines *)

(** No character of [s] is a space of the "C" locale. *)
Fixpoint spaceFree (s : string) : bool :=
  match s with
  | "" => true
  | String c s' => negb (isspace c) && spaceFree s'
  end.

(** What [ss >> token] extracts: at least one character, none a space. *)
Definition isWord (w : string) : Prop := w ≠ "" ∧ spaceFree w = true.

(** The words, one space between two of them. *)
Definition unwords (ws : list string) : string := String.concat " " ws.

(** No character of [s] ends a line. *)
Fixpoint newlineFree (s : string) : bool :=
  match s with
  | "" => true
  | String c s' => negb (bool_decide (c = "010"%char)) && newlineFree s'
  end.

(** A rule whose symbols are all words, with at least one on the right. *)
Definition wordRule (rule : GrammarRule) : Prop :=
  isWord (lhs rule) ∧ Forall isWord (rhs rule) ∧ rhs rule ≠ [].

(** The line that states [rule]. *)
Definition lineOfRule (rule : GrammarRule) : string :=
  unwords (lhs rule :: "->" :: rhs rule).

(** *** Bounds on the passes *)

(** Passes that suffice for [computeFirst] and for [computeFollow] on an
    object whose stored sets are within its terminals and the end marker. *)
Definition firstPasses (p : LL1Parser) : nat :=
  length (grammar p) * size (terminals p) + 1.

Definition followPasses (p : LL1Parser) : nat :=
  length (rhsSymbols p) * (size (terminals p) + 1) + 1.

(** Fuel that suffices for the pipeline of [main] up to the table. *)
Definition analysisFuel (grammarFile : string) : nat :=
  let p := loadGrammar grammarFile newParser in
  firstPasses p + followPasses p.

(** *** Objects that the reading functions cannot tell apart *)

Definition sameView (p q : LL1Parser) : Prop :=
  sameData p q ∧ sameFIRST p q ∧ sameFOLLOW p q.

(** *** The rule a key ends with *)

#[global] Instance claims_dec p rule N t : Decision (claims p rule N t).
Proof. unfold claims. apply _. Defined.

(** The last of [rules] that claims the key [(N, t)], if one does. *)
Fixpoint lastClaim (p : LL1Parser) (rules : list GrammarRule) (N t : string) :
    option GrammarRule :=
  match rules with
  | [] => None
  | rule :: rules' =>
      match lastClaim p rules' N t with
      | Some later => Some later
      | None => if decide (claims p rule N t) then Some rule else None
      end
  end.

(** *** Derivations *)

(** A right-hand side without its epsilon markers. *)
Definition strip (symbols : list string) : list string :=
  filter (λ s, s ≠ epsilon) symbols.

(** [derives G α γ]: the sequence of symbols [γ] is derived from [α] by
    rewriting, any number of times, a symbol that is the left-hand side of a
    rule of [G] into the right-hand side of that rule, epsilon markers
    left out. *)
Inductive derives (G : list GrammarRule) : list string → list string → Prop :=
  | derives_refl α : derives G α α
  | derives_step α β X γ rule :
      derives G α (β ++ X :: γ) → rule ∈ G → lhs rule = X →
      derives G α (β ++ strip (rhs rule) ++ γ).

(** Every entry of the table is a rule of the grammar for the nonterminal of
    its key. *)
Definition tableSound (p : LL1Parser) : Prop :=
  map_Forall (λ key rule, rule ∈ grammar p ∧ lhs rule = key.1) (parseTable p).




(** A grammar with a left-recursive rule that the table prefers. *)
Definition grammar_left_recursive : string := fileOf ["S -> a"; "S -> S a"].


Definition table_left_recursive : LL1Parser :=
  default newParser (analyse 4 grammar_left_recursive).

(** *** Fixed points *)

(** The stored FIRST sets of [r] are closed under the rules [rules]. *)
Definition firstClosed (rules : list GrammarRule) (r : LL1Parser) : Prop :=
  Forall (λ rule, (computeFirstOf (rhs rule) r).1 ⊆ FIRST r (lhs rule)) rules.

(** Every set that [firstSet p] stores is within the FIRST set of [r] for
    the same symbol. *)
Definition firstWithin (p r : LL1Parser) : Prop :=
  map_Forall (λ k s, s ⊆ FIRST r k) (firstSet p).

(** The object in which every left-hand side of [p] has all the terminals
    for its FIRST set. *)
Definition fullFirst (p : LL1Parser) : LL1Parser :=
  set_firstSet
    (λ _, list_to_map ((λ rule, (lhs rule, terminals p)) <$> grammar p)) p.

(** * Properties *)

Example ex_split : split "S  -> a	B " [] = ["S"; "->"; "a"; "B"].
Proof. reflexivity. Qed.

#[local] Set Warnings "-clear-no-such-hyp".

(** Decidable facts about concrete objects are settled by evaluation. *)
Ltac by_evaluation :=
  match goal with
  | |- ?P => apply (bool_decide_unpack P); vm_compute; exact I
  end.

Lemma stored_touch m k k' : stored (touch m k) k' = stored m k'.
Proof.
  unfold stored, touch.
  destruct (decide (k = k')) as [->|Hne].
  - by rewrite lookup_insert_eq.
  - by rewrite lookup_insert_ne.
Qed.

Lemma stored_insert m k (s : gset string) k' :
  stored (<[k := s]> m) k' = if decide (k = k') then s else stored m k'.
Proof.
  unfold stored. case_decide as Hk.
  - subst. by rewrite lookup_insert_eq.
  - by rewrite lookup_insert_ne.
Qed.

Lemma readOnly_refl p : readOnly p p.
Proof. by repeat split. Qed.

Lemma readOnly_trans p q r : readOnly p q → readOnly q r → readOnly p r.
Proof.
  intros ((g1 & t1 & n1 & s1) & f1 & o1 & pt1) ((g2 & t2 & n2 & s2) & f2 & o2 & pt2).
  repeat split; congruence.
Qed.

Lemma index_firstSet_readOnly p k : readOnly p (index_firstSet p k).2.
Proof. repeat split; simpl. intros k'. apply stored_touch. Qed.

Lemma index_followSet_readOnly p k : readOnly p (index_followSet p k).2.
Proof. repeat split; simpl. intros k'. apply stored_touch. Qed.

Lemma isTerminal_readOnly p q symbol :
  terminals q = terminals p → isTerminal q symbol = isTerminal p symbol.
Proof. unfold isTerminal. by intros ->. Qed.

(** *** [computeFirstOf] only reads *)

Lemma computeFirstOf_loop_readOnly symbols first p :
  readOnly p (computeFirstOf_loop symbols first p).2.
Proof.
  revert first p. induction symbols as [|symbol symbols IH]; intros first p; simpl.
  - apply readOnly_refl.
  - destruct (isTerminal p symbol); simpl; [apply readOnly_refl|].
    case_decide; simpl.
    + eapply readOnly_trans; [apply (index_firstSet_readOnly p symbol)|apply IH].
    + apply (index_firstSet_readOnly p symbol).
Qed.

Lemma computeFirstOf_readOnly symbols p : readOnly p (computeFirstOf symbols p).2.
Proof. apply computeFirstOf_loop_readOnly. Qed.

(** Its result depends on the terminals and on the stored FIRST sets only. *)
Lemma computeFirstOf_loop_ext symbols first p q :
  terminals q = terminals p → sameFIRST p q →
  (computeFirstOf_loop symbols first q).1 = (computeFirstOf_loop symbols first p).1.
Proof.
  revert first p q. induction symbols as [|symbol symbols IH];
    intros first p q Ht Hf; simpl; [done|].
  rewrite (isTerminal_readOnly p q) by done.
  destruct (isTerminal p symbol); simpl; [done|].
  unfold sameFIRST, FIRST in Hf. rewrite (Hf symbol).
  case_decide; simpl; [|done].
  apply IH; simpl; [done|].
  intros k. unfold FIRST; simpl. rewrite !stored_touch. apply Hf.
Qed.

Lemma computeFirstOf_ext symbols p q :
  terminals q = terminals p → sameFIRST p q →
  (computeFirstOf symbols q).1 = (computeFirstOf symbols p).1.
Proof. apply computeFirstOf_loop_ext. Qed.

(** Its result stays within any set that holds the terminals and the stored
    FIRST sets. *)
Lemma computeFirstOf_loop_bound (U : gset string) symbols first p :
  terminals p ⊆ U → (∀ k, FIRST p k ⊆ U) → first ⊆ U →
  (computeFirstOf_loop symbols first p).1 ⊆ U.
Proof.
  revert first p. induction symbols as [|symbol symbols IH];
    intros first p Ht Hf Hfirst; simpl; [done|].
  destruct (isTerminal p symbol) eqn:Hterm; simpl.
  - apply bool_decide_eq_true in Hterm. set_solver.
  - pose proof (Hf symbol) as Hs. unfold FIRST in Hs.
    case_decide; simpl; [|set_solver].
    apply IH; simpl; [done| |set_solver].
    intros k. unfold FIRST; simpl. rewrite stored_touch. apply Hf.
Qed.

Lemma computeFirstOf_bound (U : gset string) symbols p :
  terminals p ⊆ U → (∀ k, FIRST p k ⊆ U) → (computeFirstOf symbols p).1 ⊆ U.
Proof. intros. apply computeFirstOf_loop_bound; set_solver. Qed.

(** ** Sums of set sizes, the measure of the two fixed points *)

Lemma sum_list_with_le {A} (f g : A → nat) (l : list A) :
  (∀ x, x ∈ l → f x ≤ g x) → sum_list_with f l ≤ sum_list_with g l.
Proof.
  induction l as [|x l IH]; intros Hle; simpl; [done|].
  pose proof (Hle x (list_elem_of_here x l)).
  assert (sum_list_with f l ≤ sum_list_with g l).
  { apply IH. intros y Hy. apply Hle. by apply list_elem_of_further. }
  lia.
Qed.

Lemma sum_list_with_lt {A} (f g : A → nat) (l : list A) (x : A) :
  (∀ y, y ∈ l → f y ≤ g y) → x ∈ l → f x < g x →
  sum_list_with f l < sum_list_with g l.
Proof.
  intros Hle Hx Hlt. apply list_elem_of_split in Hx as (l1 & l2 & ->).
  rewrite !sum_list_with_app. simpl.
  assert (sum_list_with f l1 ≤ sum_list_with g l1).
  { apply sum_list_with_le. intros y Hy. apply Hle. set_solver. }
  assert (sum_list_with f l2 ≤ sum_list_with g l2).
  { apply sum_list_with_le. intros y Hy. apply Hle. set_solver. }
  lia.
Qed.

Lemma sum_list_with_bound {A} (f : A → nat) (l : list A) (b : nat) :
  (∀ x, x ∈ l → f x ≤ b) → sum_list_with f l ≤ length l * b.
Proof.
  induction l as [|x l IH]; intros Hle; simpl; [done|].
  pose proof (Hle x (list_elem_of_here x l)).
  assert (sum_list_with f l ≤ length l * b).
  { apply IH. intros y Hy. apply Hle. by apply list_elem_of_further. }
  lia.
Qed.

Lemma stored_subseteq_storedUnion m k : stored m k ⊆ storedUnion m.
Proof.
  unfold stored, storedUnion. destruct (m !! k) as [s|] eqn:Hk; simpl; [|set_solver].
  intros x Hx. apply elem_of_union_list. exists s. split; [|done].
  apply list_elem_of_fmap. exists (k, s). split; [done|].
  by apply elem_of_map_to_list.
Qed.

(** ** [computeFirst] *)

Section first_fixpoint.

Variable U : gset string.

Lemma firstGrows_refl p : firstGrows U p p.
Proof. unfold firstGrows, sameData, sameFOLLOW, FIRST_le. naive_solver. Qed.

Lemma firstGrows_trans p q r : firstGrows U p q → firstGrows U q r → firstGrows U p r.
Proof.
  intros ((g1 & t1 & n1 & s1) & o1 & pt1 & le1 & b1)
         ((g2 & t2 & n2 & s2) & o2 & pt2 & le2 & b2).
  repeat split; try congruence.
  - intros k. etrans; [apply le1|apply le2].
  - by apply b2, b1.
  - by apply b2, b1.
Qed.

(** The effect of lines 101-106 on the stored FIRST sets. *)
Lemma computeFirst_rule_FIRST rule p k :
  FIRST (computeFirst_rule rule p).1 k =
    if decide (lhs rule = k)
    then FIRST p (lhs rule) ∪ (computeFirstOf (rhs rule) p).1
    else FIRST p k.
Proof.
  unfold computeFirst_rule. simpl.
  pose proof (computeFirstOf_readOnly (rhs rule)
                (set_firstSet (λ m, touch m (lhs rule)) p)) as (_ & Hf & _).
  pose proof (computeFirstOf_ext (rhs rule) p
                (set_firstSet (λ m, touch m (lhs rule)) p)) as Hext.
  destruct (computeFirstOf (rhs rule) _) as [firstOfRHS p2]; simpl in *.
  unfold FIRST; simpl. rewrite stored_insert. case_decide.
  - rewrite Hext; [done|done|]. intros k'. unfold FIRST; simpl. apply stored_touch.
  - unfold sameFIRST, FIRST in Hf. rewrite Hf. simpl. apply stored_touch.
Qed.

Lemma computeFirst_rule_grew rule p :
  (computeFirst_rule rule p).2 = true →
  size (FIRST p (lhs rule)) < size (FIRST (computeFirst_rule rule p).1 (lhs rule)).
Proof.
  rewrite computeFirst_rule_FIRST. rewrite decide_True by done.
  unfold computeFirst_rule. simpl.
  pose proof (computeFirstOf_ext (rhs rule) p
                (set_firstSet (λ m, touch m (lhs rule)) p)) as Hext.
  destruct (computeFirstOf (rhs rule) _) as [firstOfRHS p2]; simpl in *.
  intros Hgrew%bool_decide_eq_true.
  rewrite <- Hext; [done|done|]. intros k'. unfold FIRST; simpl. apply stored_touch.
Qed.

Lemma computeFirst_rule_grows rule p : firstGrows U p (computeFirst_rule rule p).1.
Proof.
  assert (sameData p (computeFirst_rule rule p).1 ∧
          sameFOLLOW p (computeFirst_rule rule p).1 ∧
          parseTable (computeFirst_rule rule p).1 = parseTable p) as (Hd & Ho & Hpt).
  { unfold computeFirst_rule. simpl.
    pose proof (computeFirstOf_readOnly (rhs rule)
                  (set_firstSet (λ m, touch m (lhs rule)) p))
      as ((g & t & n & s) & _ & o & pt).
    destruct (computeFirstOf (rhs rule) _) as [firstOfRHS p2]; simpl in *.
    by repeat split. }
  split; [done|]. split; [done|]. split; [done|]. split.
  - intros k. rewrite computeFirst_rule_FIRST. case_decide; set_solver.
  - intros (Ht & Hb). destruct Hd as (_ & t & _). split; [by rewrite t|].
    intros k. rewrite computeFirst_rule_FIRST.
    pose proof (computeFirstOf_bound U (rhs rule) p Ht Hb).
    pose proof (Hb (lhs rule)). pose proof (Hb k). case_decide; set_solver.
Qed.

Lemma computeFirst_rules_app l1 l2 p changed :
  computeFirst_rules (l1 ++ l2) p changed =
    computeFirst_rules l2 (computeFirst_rules l1 p changed).1
                          (computeFirst_rules l1 p changed).2.
Proof.
  revert p changed. induction l1 as [|rule l1 IH]; intros p changed; simpl; [done|].
  destruct (computeFirst_rule rule p) as [p1 grew]. apply IH.
Qed.

(** The flag does not steer the pass. *)
Lemma computeFirst_rules_flag rules p c c' :
  (computeFirst_rules rules p c).1 = (computeFirst_rules rules p c').1.
Proof.
  revert p c c'. induction rules as [|rule rules IH]; intros p c c'; simpl; [done|].
  destruct (computeFirst_rule rule p) as [p1 grew]. apply IH.
Qed.

Lemma computeFirst_rules_grows rules p changed :
  firstGrows U p (computeFirst_rules rules p changed).1.
Proof.
  revert p changed. induction rules as [|rule rules IH]; intros p changed; simpl.
  - apply firstGrows_refl.
  - pose proof (computeFirst_rule_grows rule p) as Hstep.
    destruct (computeFirst_rule rule p) as [p1 grew]; simpl in *.
    eapply firstGrows_trans; [exact Hstep|apply IH].
Qed.

(** The flag is raised only by a rule whose left-hand side gained a symbol. *)
Lemma computeFirst_rules_changed rules p changed :
  (computeFirst_rules rules p changed).2 = true →
  changed = true ∨
  ∃ rule, rule ∈ rules ∧
    size (FIRST p (lhs rule)) <
      size (FIRST (computeFirst_rules rules p changed).1 (lhs rule)).
Proof.
  revert p changed. induction rules as [|rule rules IH]; intros p changed; simpl.
  - by left.
  - pose proof (computeFirst_rule_grows rule p) as (_ & _ & _ & Hle1 & _).
    pose proof (computeFirst_rule_grew rule p) as Hgrew.
    destruct (computeFirst_rule rule p) as [p1 grew]; simpl in *.
    intros Hc. pose proof (computeFirst_rules_grows rules p1
                             (if grew then true else changed)) as (_ & _ & _ & Hle2 & _).
    destruct (IH _ _ Hc) as [Hflag|(r & Hr & Hlt)].
    + destruct grew; [|by left]. right. exists rule. split; [set_solver|].
      specialize (Hgrew eq_refl).
      pose proof (subseteq_size _ _ (Hle2 (lhs rule))). lia.
    + right. exists r. split; [set_solver|].
      pose proof (subseteq_size _ _ (Hle1 (lhs r))). lia.
Qed.

Lemma computeFirst_pass_grows p : firstGrows U p (computeFirst_pass p).1.
Proof. apply computeFirst_rules_grows. Qed.

Lemma computeFirst_pass_measure p :
  (computeFirst_pass p).2 = true →
  firstMeasure p < firstMeasure (computeFirst_pass p).1.
Proof.
  intros Hc. pose proof (computeFirst_pass_grows p) as ((g & _) & _ & _ & Hle & _).
  apply computeFirst_rules_changed in Hc as [?|(rule & Hrule & Hlt)]; [done|].
  unfold firstMeasure. rewrite g.
  apply (sum_list_with_lt _ _ _ rule); [|done|done].
  intros r _. apply subseteq_size, Hle.
Qed.

Lemma firstMeasure_bound p :
  firstBounded U p → firstMeasure p ≤ length (grammar p) * size U.
Proof.
  intros (_ & Hb). apply sum_list_with_bound. intros r _. apply subseteq_size, Hb.
Qed.

(** The loop stops: a pass that reports a change uses up some of the room
    that [U] leaves. *)
Lemma firstRun_exists_room n p :
  firstBounded U p → length (grammar p) * size U - firstMeasure p ≤ n →
  ∃ K q, firstRun K p q.
Proof.
  revert p. induction n as [|n IH]; intros p Hb Hn;
    pose proof (computeFirst_pass_grows p) as ((g & _) & _ & _ & _ & Hb');
    pose proof (computeFirst_pass_measure p) as Hm;
    pose proof (firstMeasure_bound _ (Hb' Hb)) as Hbound;
    rewrite g in Hbound;
    destruct (computeFirst_pass p) as [p1 changed] eqn:Hpass; simpl in *;
    destruct changed.
  - specialize (Hm eq_refl). lia.
  - exists 1, p1. by constructor.
  - specialize (Hm eq_refl).
    destruct (IH p1) as (K & q & Hrun); [by apply Hb'|rewrite g; lia|].
    exists (S K), q. by econstructor.
  - exists 1, p1. by constructor.
Qed.

Lemma firstRun_exists p : firstBounded U p → ∃ K q, firstRun K p q.
Proof. intros Hb. by eapply firstRun_exists_room. Qed.

Lemma firstRun_grows K p q : firstRun K p q → firstGrows U p q.
Proof.
  induction 1 as [p q Hpass|K p p' q Hpass _ IH].
  - pose proof (computeFirst_pass_grows p) as H. by rewrite Hpass in H.
  - pose proof (computeFirst_pass_grows p) as H. rewrite Hpass in H.
    eapply firstGrows_trans; [exact H|exact IH].
Qed.

End first_fixpoint.

Lemma firstRun_pos K p q : firstRun K p q → 0 < K.
Proof. destruct 1; lia. Qed.

(** [firstRun] is what [computeFirst] does with enough fuel, and only then. *)
Lemma firstRun_fuel K p q :
  firstRun K p q →
  ∀ fuel, computeFirst fuel p = if decide (K ≤ fuel) then Some q else None.
Proof.
  induction 1 as [p q Hpass|K p p' q Hpass Hrun IH]; intros [|fuel];
    cbn [computeFirst]; rewrite ?Hpass, ?IH; repeat case_decide; done || lia.
Qed.

Lemma firstRun_passes K p q : firstRun K p q → computeFirst_passes K p = q.
Proof.
  induction 1 as [p q Hpass|K p p' q Hpass _ IH]; simpl; by rewrite Hpass.
Qed.

Lemma computeFirst_rules_le rules p changed :
  FIRST_le p (computeFirst_rules rules p changed).1.
Proof. by destruct (computeFirst_rules_grows ∅ rules p changed) as (_ & _ & _ & ? & _). Qed.

(** Every state of the run is within the final one. *)
Lemma firstRun_prefix K p q k done rest :
  firstRun K p q → k < K → grammar p = done ++ rest →
  FIRST_le (computeFirst_prefix k done p) q.
Proof.
  intros Hrun. revert k. induction Hrun as [p q Hpass|K p p' q Hpass Hrun IH];
    intros k Hk Hg.
  - assert (k = 0) as -> by lia. unfold computeFirst_prefix. simpl.
    assert (q = (computeFirst_pass p).1) as -> by (by rewrite Hpass).
    unfold computeFirst_pass. rewrite Hg, computeFirst_rules_app.
    apply computeFirst_rules_le.
  - destruct k as [|k].
    + unfold computeFirst_prefix. simpl.
      pose proof (firstRun_grows ∅ _ _ _ Hrun) as (_ & _ & _ & Hle & _).
      assert (p' = (computeFirst_pass p).1) as -> by (by rewrite Hpass).
      intros x. etrans; [|apply Hle].
      unfold computeFirst_pass. rewrite Hg, computeFirst_rules_app.
      apply computeFirst_rules_le.
    + unfold computeFirst_prefix. simpl. rewrite Hpass. simpl.
      apply IH; [lia|].
      pose proof (computeFirst_pass_grows ∅ p) as ((g & _) & _).
      rewrite Hpass in g. simpl in g. by rewrite g.
Qed.

(** A set that holds whatever [computeFirst] can store, whatever the object
    it starts from. *)
Lemma firstBounded_initial p :
  firstBounded (terminals p ∪ storedUnion (firstSet p)) p.
Proof.
  split; [set_solver|]. intros k. unfold FIRST.
  pose proof (stored_subseteq_storedUnion (firstSet p) k). set_solver.
Qed.

Lemma computeFirst_terminates p : ∃ K q, firstRun K p q.
Proof. eapply firstRun_exists, firstBounded_initial. Qed.

(** ** [computeFollow] *)

(** *** [computeFollowOf] only reads *)

Lemma computeFollowOf_rhs_readOnly nonTerminal ruleLhs symbols follow p :
  readOnly p (computeFollowOf_rhs nonTerminal ruleLhs symbols follow p).2.
Proof.
  revert follow p. induction symbols as [|sym suffix IH]; intros follow p;
    [apply readOnly_refl|].
  cbn [computeFollowOf_rhs]. case_decide; [|apply IH].
  destruct suffix as [|next suffix'].
  - simpl. apply (index_followSet_readOnly p ruleLhs).
  - pose proof (computeFirstOf_readOnly (next :: suffix') p) as Hro.
    destruct (computeFirstOf (next :: suffix') p) as [firstOfNext p1].
    simpl in Hro. case_decide.
    + eapply readOnly_trans; [exact Hro|].
      eapply readOnly_trans; [apply (index_followSet_readOnly p1 ruleLhs)|apply IH].
    + eapply readOnly_trans; [exact Hro|apply IH].
Qed.

Lemma computeFollowOf_rules_readOnly nonTerminal rules follow p :
  readOnly p (computeFollowOf_rules nonTerminal rules follow p).2.
Proof.
  revert follow p. induction rules as [|rule rules IH]; intros follow p; simpl;
    [apply readOnly_refl|].
  pose proof (computeFollowOf_rhs_readOnly nonTerminal (lhs rule) (rhs rule) follow p)
    as Hro.
  destruct (computeFollowOf_rhs _ _ _ _ _) as [follow1 p1]. simpl in Hro.
  eapply readOnly_trans; [exact Hro|apply IH].
Qed.

Lemma computeFollowOf_readOnly nonTerminal p :
  readOnly p (computeFollowOf nonTerminal p).2.
Proof. apply computeFollowOf_rules_readOnly. Qed.

Lemma followBounded_readOnly U p q : readOnly p q → followBounded U p → followBounded U q.
Proof.
  intros ((_ & t & _) & Hf & Ho & _) (He & Ht & Hfb & Hob).
  split; [done|]. split; [by rewrite t|]. split; intros k; [rewrite Hf|rewrite Ho]; done.
Qed.

Section follow_fixpoint.

Variable U : gset string.

Lemma computeFollowOf_rhs_bound nonTerminal ruleLhs symbols follow p :
  followBounded U p → follow ⊆ U →
  (computeFollowOf_rhs nonTerminal ruleLhs symbols follow p).1 ⊆ U.
Proof.
  revert follow p. induction symbols as [|sym suffix IH]; intros follow p Hb Hfollow;
    [done|].
  cbn [computeFollowOf_rhs]. case_decide; [|by apply IH].
  pose proof Hb as (He & Ht & Hfb & Hob).
  destruct suffix as [|next suffix'].
  - simpl. pose proof (Hob ruleLhs). unfold FOLLOW in *. set_solver.
  - pose proof (computeFirstOf_readOnly (next :: suffix') p) as Hro.
    pose proof (computeFirstOf_bound U (next :: suffix') p Ht Hfb) as Hfirst.
    destruct (computeFirstOf (next :: suffix') p) as [firstOfNext p1].
    simpl in Hro, Hfirst.
    pose proof (followBounded_readOnly U _ _ Hro Hb) as Hb1.
    case_decide.
    + apply IH.
      * eapply followBounded_readOnly; [|exact Hb1].
        apply (index_followSet_readOnly p1 ruleLhs).
      * destruct Hb1 as (_ & _ & _ & Hob1). pose proof (Hob1 ruleLhs).
        unfold index_followSet, FOLLOW in *. simpl. set_solver.
    + apply IH; [done|set_solver].
Qed.

Lemma computeFollowOf_rules_bound nonTerminal rules follow p :
  followBounded U p → follow ⊆ U →
  (computeFollowOf_rules nonTerminal rules follow p).1 ⊆ U.
Proof.
  revert follow p. induction rules as [|rule rules IH]; intros follow p Hb Hfollow;
    simpl; [done|].
  pose proof (computeFollowOf_rhs_readOnly nonTerminal (lhs rule) (rhs rule) follow p)
    as Hro.
  pose proof (computeFollowOf_rhs_bound nonTerminal (lhs rule) (rhs rule) follow p
                Hb Hfollow) as Hsub.
  destruct (computeFollowOf_rhs _ _ _ _ _) as [follow1 p1]. simpl in Hro, Hsub.
  apply IH; [|done]. by eapply followBounded_readOnly.
Qed.

Lemma computeFollowOf_bound nonTerminal p :
  followBounded U p → (computeFollowOf nonTerminal p).1 ⊆ U.
Proof.
  intros Hb. apply computeFollowOf_rules_bound; [done|].
  destruct Hb as (He & _). case_decide; set_solver.
Qed.

Lemma followGrows_refl p : followGrows U p p.
Proof. unfold followGrows, sameData, sameFIRST, FOLLOW_le. naive_solver. Qed.

Lemma followGrows_trans p q r :
  followGrows U p q → followGrows U q r → followGrows U p r.
Proof.
  intros ((g1 & t1 & n1 & s1) & o1 & pt1 & le1 & b1)
         ((g2 & t2 & n2 & s2) & o2 & pt2 & le2 & b2).
  split; [repeat split; congruence|]. split; [intros k; congruence|].
  split; [congruence|]. split.
  - intros k. etrans; [apply le1|apply le2].
  - intros Hb. by apply b2, b1.
Qed.

(** The effect of lines 144-149 on the stored FOLLOW sets. *)
Lemma computeFollow_symbol_FOLLOW sym p k :
  FOLLOW (computeFollow_symbol sym p).1 k =
    if decide (sym ∈ nonTerminals p ∧ sym = k)
    then FOLLOW p sym ∪ (computeFollowOf sym p).1
    else FOLLOW p k.
Proof.
  unfold computeFollow_symbol. destruct (decide (sym ∈ nonTerminals p)) as [Hnt|Hnt].
  - pose proof (computeFollowOf_readOnly sym p) as (_ & _ & Ho & _).
    destruct (computeFollowOf sym p) as [followOfRHS p1]. simpl in *.
    unfold sameFOLLOW, FOLLOW in *. simpl.
    rewrite stored_insert, !stored_touch, !Ho. repeat case_decide; naive_solver.
  - simpl. rewrite decide_False by naive_solver. done.
Qed.

Lemma computeFollow_symbol_grew sym p :
  (computeFollow_symbol sym p).2 = true →
  size (FOLLOW p sym) < size (FOLLOW (computeFollow_symbol sym p).1 sym).
Proof.
  rewrite computeFollow_symbol_FOLLOW.
  unfold computeFollow_symbol. destruct (decide (sym ∈ nonTerminals p)) as [Hnt|Hnt];
    [|done].
  rewrite decide_True by done.
  pose proof (computeFollowOf_readOnly sym p) as (_ & _ & Ho & _).
  destruct (computeFollowOf sym p) as [followOfRHS p1]. simpl in *.
  intros Hgrew%bool_decide_eq_true. revert Hgrew.
  unfold sameFOLLOW, FOLLOW in *. simpl.
  by rewrite stored_insert, decide_True, !stored_touch, !Ho by done.
Qed.

Lemma computeFollow_symbol_grows sym p :
  followGrows U p (computeFollow_symbol sym p).1.
Proof.
  assert (sameData p (computeFollow_symbol sym p).1 ∧
          sameFIRST p (computeFollow_symbol sym p).1 ∧
          parseTable (computeFollow_symbol sym p).1 = parseTable p) as (Hd & Hf & Hpt).
  { unfold computeFollow_symbol. case_decide; [|by repeat split].
    pose proof (computeFollowOf_readOnly sym p) as ((g & t & n & s) & f & _ & pt).
    destruct (computeFollowOf sym p) as [followOfRHS p1]. simpl in *.
    by repeat split. }
  split; [done|]. split; [done|]. split; [done|]. split.
  - intros k. rewrite computeFollow_symbol_FOLLOW. case_decide; set_solver.
  - intros Hb. pose proof (computeFollowOf_bound sym p Hb) as Hsub.
    destruct Hb as (He & Ht & Hfb & Hob). destruct Hd as (_ & t & _).
    split; [done|]. split; [by rewrite t|]. split.
    + intros k. by rewrite Hf.
    + intros k. rewrite computeFollow_symbol_FOLLOW.
      pose proof (Hob sym). pose proof (Hob k). case_decide; set_solver.
Qed.

Lemma computeFollow_rhs_app l1 l2 p changed :
  computeFollow_rhs (l1 ++ l2) p changed =
    computeFollow_rhs l2 (computeFollow_rhs l1 p changed).1
                         (computeFollow_rhs l1 p changed).2.
Proof.
  revert p changed. induction l1 as [|sym l1 IH]; intros p changed; simpl; [done|].
  destruct (computeFollow_symbol sym p) as [p1 grew]. apply IH.
Qed.

Lemma computeFollow_rules_app l1 l2 p changed :
  computeFollow_rules (l1 ++ l2) p changed =
    computeFollow_rules l2 (computeFollow_rules l1 p changed).1
                           (computeFollow_rules l1 p changed).2.
Proof.
  revert p changed. induction l1 as [|rule l1 IH]; intros p changed; simpl; [done|].
  destruct (computeFollow_rhs (rhs rule) p changed) as [p1 changed1]. apply IH.
Qed.

(** The flag does not steer the pass. *)
Lemma computeFollow_rhs_flag symbols p c c' :
  (computeFollow_rhs symbols p c).1 = (computeFollow_rhs symbols p c').1.
Proof.
  revert p c c'. induction symbols as [|sym symbols IH]; intros p c c'; simpl; [done|].
  destruct (computeFollow_symbol sym p) as [p1 grew]. apply IH.
Qed.

Lemma computeFollow_rules_flag rules p c c' :
  (computeFollow_rules rules p c).1 = (computeFollow_rules rules p c').1.
Proof.
  revert p c c'. induction rules as [|rule rules IH]; intros p c c'; simpl; [done|].
  pose proof (computeFollow_rhs_flag (rhs rule) p c c') as Hflag.
  destruct (computeFollow_rhs (rhs rule) p c) as [p1 c1].
  destruct (computeFollow_rhs (rhs rule) p c') as [p1' c1'].
  simpl in Hflag. subst p1'. apply IH.
Qed.

Lemma computeFollow_rhs_grows symbols p changed :
  followGrows U p (computeFollow_rhs symbols p changed).1.
Proof.
  revert p changed. induction symbols as [|sym symbols IH]; intros p changed; simpl.
  - apply followGrows_refl.
  - pose proof (computeFollow_symbol_grows sym p) as Hstep.
    destruct (computeFollow_symbol sym p) as [p1 grew]; simpl in *.
    eapply followGrows_trans; [exact Hstep|apply IH].
Qed.

Lemma computeFollow_rules_grows rules p changed :
  followGrows U p (computeFollow_rules rules p changed).1.
Proof.
  revert p changed. induction rules as [|rule rules IH]; intros p changed; simpl.
  - apply followGrows_refl.
  - pose proof (computeFollow_rhs_grows (rhs rule) p changed) as Hstep.
    destruct (computeFollow_rhs (rhs rule) p changed) as [p1 changed1]; simpl in *.
    eapply followGrows_trans; [exact Hstep|apply IH].
Qed.

(** The flag is raised only at a position whose symbol gained a follower. *)
Lemma computeFollow_rhs_changed symbols p changed :
  (computeFollow_rhs symbols p changed).2 = true →
  changed = true ∨
  ∃ sym, sym ∈ symbols ∧
    size (FOLLOW p sym) < size (FOLLOW (computeFollow_rhs symbols p changed).1 sym).
Proof.
  revert p changed. induction symbols as [|sym symbols IH]; intros p changed; simpl.
  - by left.
  - pose proof (computeFollow_symbol_grows sym p) as (_ & _ & _ & Hle1 & _).
    pose proof (computeFollow_symbol_grew sym p) as Hgrew.
    destruct (computeFollow_symbol sym p) as [p1 grew]; simpl in *.
    intros Hc. pose proof (computeFollow_rhs_grows symbols p1
                             (if grew then true else changed)) as (_ & _ & _ & Hle2 & _).
    destruct (IH _ _ Hc) as [Hflag|(s & Hs & Hlt)].
    + destruct grew; [|by left]. right. exists sym. split; [set_solver|].
      specialize (Hgrew eq_refl).
      pose proof (subseteq_size _ _ (Hle2 sym)). lia.
    + right. exists s. split; [set_solver|].
      pose proof (subseteq_size _ _ (Hle1 s)). lia.
Qed.

Lemma computeFollow_rules_changed rules p changed :
  (computeFollow_rules rules p changed).2 = true →
  changed = true ∨
  ∃ sym, sym ∈ rules ≫= rhs ∧
    size (FOLLOW p sym) < size (FOLLOW (computeFollow_rules rules p changed).1 sym).
Proof.
  revert p changed. induction rules as [|rule rules IH]; intros p changed; simpl.
  - by left.
  - pose proof (computeFollow_rhs_grows (rhs rule) p changed) as (_ & _ & _ & Hle1 & _).
    pose proof (computeFollow_rhs_changed (rhs rule) p changed) as Hinner.
    destruct (computeFollow_rhs (rhs rule) p changed) as [p1 changed1]; simpl in *.
    intros Hc. pose proof (computeFollow_rules_grows rules p1 changed1)
      as (_ & _ & _ & Hle2 & _).
    destruct (IH _ _ Hc) as [Hflag|(s & Hs & Hlt)].
    + destruct (Hinner Hflag) as [?|(s & Hs & Hlt)]; [by left|].
      right. exists s. split; [set_solver|].
      pose proof (subseteq_size _ _ (Hle2 s)). lia.
    + right. exists s. split; [set_solver|].
      pose proof (subseteq_size _ _ (Hle1 s)). lia.
Qed.

Lemma computeFollow_pass_grows p : followGrows U p (computeFollow_pass p).1.
Proof. apply computeFollow_rules_grows. Qed.

Lemma computeFollow_pass_measure p :
  (computeFollow_pass p).2 = true →
  followMeasure p < followMeasure (computeFollow_pass p).1.
Proof.
  intros Hc. pose proof (computeFollow_pass_grows p) as ((g & _) & _ & _ & Hle & _).
  apply computeFollow_rules_changed in Hc as [?|(sym & Hsym & Hlt)]; [done|].
  unfold followMeasure, rhsSymbols. rewrite g.
  apply (sum_list_with_lt _ _ _ sym); [|done|done].
  intros s _. apply subseteq_size, Hle.
Qed.

Lemma followMeasure_bound p :
  followBounded U p → followMeasure p ≤ length (rhsSymbols p) * size U.
Proof.
  intros (_ & _ & _ & Hb). apply sum_list_with_bound.
  intros s _. apply subseteq_size, Hb.
Qed.

Lemma followRun_exists_room n p :
  followBounded U p → length (rhsSymbols p) * size U - followMeasure p ≤ n →
  ∃ K q, followRun K p q.
Proof.
  revert p. induction n as [|n IH]; intros p Hb Hn;
    pose proof (computeFollow_pass_grows p) as ((g & _) & _ & _ & _ & Hb');
    pose proof (computeFollow_pass_measure p) as Hm;
    pose proof (followMeasure_bound _ (Hb' Hb)) as Hbound;
    unfold rhsSymbols in *; rewrite g in Hbound;
    destruct (computeFollow_pass p) as [p1 changed] eqn:Hpass; simpl in *;
    destruct changed.
  - specialize (Hm eq_refl). lia.
  - exists 1, p1. by constructor.
  - specialize (Hm eq_refl).
    destruct (IH p1) as (K & q & Hrun); [by apply Hb'|rewrite g; lia|].
    exists (S K), q. by econstructor.
  - exists 1, p1. by constructor.
Qed.

Lemma followRun_exists p : followBounded U p → ∃ K q, followRun K p q.
Proof. intros Hb. by eapply followRun_exists_room. Qed.

Lemma followRun_grows K p q : followRun K p q → followGrows U p q.
Proof.
  induction 1 as [p q Hpass|K p p' q Hpass _ IH].
  - pose proof (computeFollow_pass_grows p) as H. by rewrite Hpass in H.
  - pose proof (computeFollow_pass_grows p) as H. rewrite Hpass in H.
    eapply followGrows_trans; [exact H|exact IH].
Qed.

End follow_fixpoint.

Lemma followRun_pos K p q : followRun K p q → 0 < K.
Proof. destruct 1; lia. Qed.

Lemma followRun_fuel K p q :
  followRun K p q →
  ∀ fuel, computeFollow fuel p = if decide (K ≤ fuel) then Some q else None.
Proof.
  induction 1 as [p q Hpass|K p p' q Hpass Hrun IH]; intros [|fuel];
    cbn [computeFollow]; rewrite ?Hpass, ?IH; repeat case_decide; done || lia.
Qed.

Lemma followRun_passes K p q : followRun K p q → computeFollow_passes K p = q.
Proof.
  induction 1 as [p q Hpass|K p p' q Hpass _ IH]; simpl; by rewrite Hpass.
Qed.

Lemma computeFollow_rhs_le symbols p changed :
  FOLLOW_le p (computeFollow_rhs symbols p changed).1.
Proof. by destruct (computeFollow_rhs_grows ∅ symbols p changed) as (_ & _ & _ & ? & _). Qed.

Lemma computeFollow_rules_le rules p changed :
  FOLLOW_le p (computeFollow_rules rules p changed).1.
Proof. by destruct (computeFollow_rules_grows ∅ rules p changed) as (_ & _ & _ & ? & _). Qed.

(** Within a pass, the state at a position is within the state the pass
    ends in. *)
Lemma computeFollow_pass_prefix p done rest symbols more :
  grammar p = done ++ rest → currentRhs rest = symbols ++ more →
  FOLLOW_le (computeFollow_rhs symbols (computeFollow_rules done p false).1 false).1
            (computeFollow_pass p).1.
Proof.
  intros Hg Hrhs. unfold computeFollow_pass. rewrite Hg, computeFollow_rules_app.
  set (p1 := (computeFollow_rules done p false).1).
  generalize ((computeFollow_rules done p false).2). intros c.
  destruct rest as [|rule rest]; simpl in Hrhs.
  - symmetry in Hrhs. apply app_eq_nil in Hrhs as (-> & ->). simpl. by intros k.
  - simpl. rewrite Hrhs, computeFollow_rhs_app.
    rewrite (computeFollow_rhs_flag symbols p1 c false).
    destruct (computeFollow_rhs more _ _) as [p2 c2] eqn:Hmore.
    intros k. etrans; [|apply computeFollow_rules_le].
    pose proof (computeFollow_rhs_le more (computeFollow_rhs symbols p1 false).1
                  (computeFollow_rhs symbols p1 c).2 k) as Hle.
    by rewrite Hmore in Hle.
Qed.

(** Every state of the run is within the final one. *)
Lemma followRun_prefix K p q k done rest symbols more :
  followRun K p q → k < K →
  grammar p = done ++ rest → currentRhs rest = symbols ++ more →
  FOLLOW_le (computeFollow_prefix k done symbols p) q.
Proof.
  intros Hrun. revert k. induction Hrun as [p q Hpass|K p p' q Hpass Hrun IH];
    intros k Hk Hg Hrhs.
  - assert (k = 0) as -> by lia. unfold computeFollow_prefix. simpl.
    assert (q = (computeFollow_pass p).1) as -> by (by rewrite Hpass).
    by eapply computeFollow_pass_prefix.
  - destruct k as [|k].
    + unfold computeFollow_prefix. simpl.
      pose proof (followRun_grows ∅ _ _ _ Hrun) as (_ & _ & _ & Hle & _).
      assert (p' = (computeFollow_pass p).1) as -> by (by rewrite Hpass).
      intros x. etrans; [|apply Hle]. by eapply computeFollow_pass_prefix.
    + unfold computeFollow_prefix. simpl. rewrite Hpass. simpl.
      apply IH; [lia| |done].
      pose proof (computeFollow_pass_grows ∅ p) as ((g & _) & _).
      rewrite Hpass in g. simpl in g. by rewrite g.
Qed.

Lemma followBounded_initial p :
  followBounded
    ({[endMarker]} ∪ terminals p ∪ storedUnion (firstSet p) ∪ storedUnion (followSet p)) p.
Proof.
  split; [set_solver|]. split; [set_solver|]. split; intros k.
  - pose proof (stored_subseteq_storedUnion (firstSet p) k). unfold FIRST. set_solver.
  - pose proof (stored_subseteq_storedUnion (followSet p) k). unfold FOLLOW. set_solver.
Qed.

Lemma computeFollow_terminates p : ∃ K q, followRun K p q.
Proof. eapply followRun_exists, followBounded_initial. Qed.

(** ** [buildParseTable] *)

Lemma tableOnly_refl p : tableOnly p p.
Proof. by repeat split. Qed.

Lemma setEntry_tableOnly p q rule terminal :
  tableOnly p q → tableOnly p (setEntry rule terminal q).
Proof. by intros ((g & t & n & s) & f & o). Qed.

Lemma setEntry_lookup rule terminal p key :
  parseTable (setEntry rule terminal p) !! key =
    if decide (key = (lhs rule, terminal)) then Some rule else parseTable p !! key.
Proof.
  simpl. case_decide as Hk.
  - subst. by rewrite lookup_insert_eq.
  - by rewrite lookup_insert_ne.
Qed.

(** The loop of lines 159-163. *)
Lemma fold_first_entries rule p (X : gset string) :
  let p' := set_fold (λ terminal p,
                        if decide (terminal ≠ epsilon) then setEntry rule terminal p else p)
                     p X in
  tableOnly p p' ∧
  ∀ key, parseTable p' !! key =
           if decide (key.1 = lhs rule ∧ key.2 ∈ X ∖ {[epsilon]})
           then Some rule else parseTable p !! key.
Proof.
  cbv zeta. revert X.
  apply (set_fold_ind_L (λ (r : LL1Parser) (X : gset string),
           tableOnly p r ∧
           ∀ key, parseTable r !! key =
                    if decide (key.1 = lhs rule ∧ key.2 ∈ X ∖ {[epsilon]})
                    then Some rule else parseTable p !! key)).
  - split; [apply tableOnly_refl|]. intros key. rewrite decide_False; [done|set_solver].
  - intros x Y r Hx (Hto & Hlook). case_decide as Hne.
    + split; [by apply setEntry_tableOnly|]. intros [N t].
      rewrite setEntry_lookup, Hlook; simpl.
      repeat case_decide; simplify_eq/=; try done; exfalso; set_solver.
    + split; [done|]. intros [N t]. rewrite Hlook; simpl.
      repeat case_decide; try done; exfalso; set_solver.
Qed.

(** The loop of lines 166-168. *)
Lemma fold_follow_entries rule p (X : gset string) :
  let p' := set_fold (λ terminal p, setEntry rule terminal p) p X in
  tableOnly p p' ∧
  ∀ key, parseTable p' !! key =
           if decide (key.1 = lhs rule ∧ key.2 ∈ X)
           then Some rule else parseTable p !! key.
Proof.
  cbv zeta. revert X.
  apply (set_fold_ind_L (λ (r : LL1Parser) (X : gset string),
           tableOnly p r ∧
           ∀ key, parseTable r !! key =
                    if decide (key.1 = lhs rule ∧ key.2 ∈ X)
                    then Some rule else parseTable p !! key)).
  - split; [apply tableOnly_refl|]. intros key. rewrite decide_False; [done|set_solver].
  - intros x Y r Hx (Hto & Hlook).
    split; [by apply setEntry_tableOnly|]. intros [N t].
    rewrite setEntry_lookup, Hlook; simpl.
    repeat case_decide; simplify_eq/=; try done; exfalso; set_solver.
Qed.

Lemma tableOnly_sameSets p q : tableOnly p q → sameData p q ∧ sameSets p q.
Proof.
  intros ((g & t & n & s) & f & o). repeat split; try done.
  - intros k. unfold FIRST. by rewrite f.
  - intros k. unfold FOLLOW. by rewrite o.
Qed.

Lemma readOnly_sameSets p q : readOnly p q → sameSets p q.
Proof. by intros ((_ & t & _) & f & o & _). Qed.

Lemma sameSets_trans p q r : sameSets p q → sameSets q r → sameSets p r.
Proof. intros (t1 & f1 & o1) (t2 & f2 & o2). repeat split; congruence. Qed.

Lemma tableEntries_ext p q rule : sameSets p q → tableEntries q rule = tableEntries p rule.
Proof.
  intros (t & f & o). unfold tableEntries.
  by rewrite (computeFirstOf_ext (rhs rule) p q), (o (lhs rule)).
Qed.

(** What lines 158-169 do to the table for one rule. *)
Lemma buildParseTable_rule_spec p rule :
  sameData p (buildParseTable_rule p rule) ∧
  sameSets p (buildParseTable_rule p rule) ∧
  ∀ key, parseTable (buildParseTable_rule p rule) !! key =
           if decide (key.1 = lhs rule ∧ key.2 ∈ tableEntries p rule)
           then Some rule else parseTable p !! key.
Proof.
  unfold buildParseTable_rule, tableEntries.
  pose proof (computeFirstOf_readOnly (rhs rule) p) as Hro.
  destruct (computeFirstOf (rhs rule) p) as [firstOfRHS p1]. simpl in *.
  pose proof (fold_first_entries rule p1 firstOfRHS) as (Hto2 & Hlook2).
  simpl in Hto2, Hlook2.
  set (p2 := set_fold _ p1 firstOfRHS) in *.
  apply tableOnly_sameSets in Hto2 as (Hd2 & Hs2).
  pose proof Hro as (Hd1 & _ & Ho1 & Hpt1).
  pose proof (readOnly_sameSets _ _ Hro) as Hs1.
  case_decide as Heps.
  - pose proof (index_followSet_readOnly p2 (lhs rule)) as Hro3.
    pose proof (fold_follow_entries rule (index_followSet p2 (lhs rule)).2
                  (stored (followSet p2) (lhs rule))) as (Hto4 & Hlook4).
    simpl in Hto4, Hlook4. simpl.
    set (p4 := set_fold _ _ (stored (followSet p2) (lhs rule))) in *.
    apply tableOnly_sameSets in Hto4 as (Hd4 & Hs4).
    pose proof Hro3 as (Hd3 & _ & _ & Hpt3).
    pose proof (readOnly_sameSets _ _ Hro3) as Hs3.
    split; [|split].
    + destruct Hd1 as (?&?&?&?), Hd2 as (?&?&?&?), Hd3 as (?&?&?&?), Hd4 as (?&?&?&?).
      simpl in *. repeat split; congruence.
    + eauto using sameSets_trans.
    + intros [N t]. rewrite Hlook4. simpl in *. rewrite Hlook2, Hpt1. simpl.
      destruct Hs2 as (_ & _ & Ho2). unfold sameFOLLOW, FOLLOW in *.
      rewrite Ho2, Ho1.
      repeat case_decide; try done; exfalso; set_solver.
  - split; [|split].
    + destruct Hd1 as (?&?&?&?), Hd2 as (?&?&?&?). repeat split; congruence.
    + eauto using sameSets_trans.
    + intros [N t]. rewrite Hlook2, Hpt1. simpl.
      repeat case_decide; try done; exfalso; set_solver.
Qed.

Lemma buildParseTable_rules_sameSets rules p :
  sameData p (foldl buildParseTable_rule p rules) ∧
  sameSets p (foldl buildParseTable_rule p rules).
Proof.
  revert p. induction rules as [|rule rules IH]; intros p; simpl.
  - by repeat split.
  - destruct (buildParseTable_rule_spec p rule) as (Hd & Hs & _).
    destruct (IH (buildParseTable_rule p rule)) as (Hd' & Hs').
    split; [|eauto using sameSets_trans].
    destruct Hd as (?&?&?&?), Hd' as (?&?&?&?). repeat split; congruence.
Qed.

(** Rules that do not claim a key leave its entry alone. *)
Lemma buildParseTable_rules_unclaimed p0 rules p N t :
  sameSets p0 p → (∀ r, r ∈ rules → ¬ claims p0 r N t) →
  parseTable (foldl buildParseTable_rule p rules) !! (N, t) = parseTable p !! (N, t).
Proof.
  revert p. induction rules as [|rule rules IH]; intros p Hs Hnone; simpl; [done|].
  destruct (buildParseTable_rule_spec p rule) as (_ & Hs1 & Hlook).
  rewrite IH; [|eauto using sameSets_trans|intros r Hr; apply Hnone; set_solver].
  rewrite Hlook. simpl. rewrite (tableEntries_ext p0 p) by done.
  rewrite decide_False; [done|].
  intros (HN & Ht). apply (Hnone rule); [set_solver|]. by split.
Qed.

Lemma buildParseTable_rules_last p0 before rule after p N t :
  sameSets p0 p → claims p0 rule N t → (∀ r, r ∈ after → ¬ claims p0 r N t) →
  parseTable (foldl buildParseTable_rule p (before ++ rule :: after)) !! (N, t)
    = Some rule.
Proof.
  intros Hs (HN & Ht) Hnone. rewrite foldl_app. simpl.
  destruct (buildParseTable_rules_sameSets before p) as (_ & Hs1).
  set (p1 := foldl buildParseTable_rule p before) in *.
  destruct (buildParseTable_rule_spec p1 rule) as (_ & Hs2 & Hlook).
  rewrite (buildParseTable_rules_unclaimed p0);
    [|eauto using sameSets_trans|done].
  rewrite Hlook. simpl. rewrite (tableEntries_ext p0 p1) by eauto using sameSets_trans.
  by rewrite decide_True.
Qed.

(** ** More fuel does not change a result *)

Lemma computeFirst_fuel_mono fuel fuel' p q :
  computeFirst fuel p = Some q → fuel ≤ fuel' → computeFirst fuel' p = Some q.
Proof.
  revert fuel' p. induction fuel as [|fuel IH]; intros fuel' p Hrun Hle; [done|].
  destruct fuel' as [|fuel']; [lia|]. simpl in *.
  destruct (computeFirst_pass p) as [p1 changed]. destruct changed; [|done].
  apply IH; [done|lia].
Qed.

Lemma computeFollow_fuel_mono fuel fuel' p q :
  computeFollow fuel p = Some q → fuel ≤ fuel' → computeFollow fuel' p = Some q.
Proof.
  revert fuel' p. induction fuel as [|fuel IH]; intros fuel' p Hrun Hle; [done|].
  destruct fuel' as [|fuel']; [lia|]. simpl in *.
  destruct (computeFollow_pass p) as [p1 changed]. destruct changed; [|done].
  apply IH; [done|lia].
Qed.

Lemma parseLoop_fuel_mono fuel fuel' p input parseStack index r :
  parseLoop fuel p input parseStack index = Some r → fuel ≤ fuel' →
  parseLoop fuel' p input parseStack index = Some r.
Proof.
  revert fuel' parseStack index. induction fuel as [|fuel IH];
    intros fuel' parseStack index Hrun Hle; [done|].
  destruct fuel' as [|fuel']; [lia|]. simpl in *.
  destruct (parseStep p input parseStack index); [|done].
  apply IH; [done|lia].
Qed.

Lemma computeSets_fuel_mono fuel fuel' grammarFile p :
  computeSets fuel grammarFile = Some p → fuel ≤ fuel' →
  computeSets fuel' grammarFile = Some p.
Proof.
  unfold computeSets. intros Hrun Hle.
  destruct (computeFirst fuel _) as [p1|] eqn:Hfirst; [|done]. simpl in Hrun.
  rewrite (computeFirst_fuel_mono _ _ _ _ Hfirst Hle). simpl.
  by eapply computeFollow_fuel_mono.
Qed.

Lemma analyse_fuel_mono fuel fuel' grammarFile p :
  analyse fuel grammarFile = Some p → fuel ≤ fuel' →
  analyse fuel' grammarFile = Some p.
Proof.
  unfold analyse. intros Hrun Hle.
  destruct (computeSets fuel _) as [p1|] eqn:Hsets; [|done]. simpl in Hrun.
  by rewrite (computeSets_fuel_mono _ _ _ _ Hsets Hle).
Qed.

Lemma run_fuel_mono fuel fuel' grammarFile tokens r :
  run fuel grammarFile tokens = Some r → fuel ≤ fuel' →
  run fuel' grammarFile tokens = Some r.
Proof.
  unfold run, parseTokens. intros Hrun Hle.
  destruct (analyse fuel _) as [p|] eqn:Han; [|done]. simpl in Hrun.
  rewrite (analyse_fuel_mono _ _ _ _ Han Hle). simpl.
  by eapply parseLoop_fuel_mono.
Qed.

(** A result does not depend on the fuel that gave it. *)
Lemma run_fuel_unique fuel fuel' grammarFile tokens r r' :
  run fuel grammarFile tokens = Some r → run fuel' grammarFile tokens = Some r' →
  r = r'.
Proof.
  intros H H'.
  pose proof (run_fuel_mono _ (fuel `max` fuel') _ _ _ H ltac:(lia)) as H1.
  pose proof (run_fuel_mono _ (fuel `max` fuel') _ _ _ H' ltac:(lia)) as H2.
  congruence.
Qed.

(** ** [loadGrammar] *)

Lemma classify_fold symbols p :
  let p' := foldl (λ p sym, classify sym p) p symbols in
  grammar p' = grammar p ∧ startSymbol p' = startSymbol p ∧
  (∀ x, x ∈ terminals p' ↔ x ∈ terminals p ∨ (x ∈ symbols ∧ isupper0 x = false)) ∧
  (∀ x, x ∈ nonTerminals p' ↔ x ∈ nonTerminals p ∨ (x ∈ symbols ∧ isupper0 x = true)).
Proof.
  cbv zeta. revert p. induction symbols as [|sym symbols IH]; intros p; simpl.
  - repeat split; set_solver.
  - destruct (IH (classify sym p)) as (g & s & t & n).
    split; [|split; [|split; intros x; [rewrite t|rewrite n]; clear t n]].
    + rewrite g. unfold classify. by destruct (isupper0 sym).
    + rewrite s. unfold classify. by destruct (isupper0 sym).
    + rewrite elem_of_cons. unfold classify.
      destruct (isupper0 sym) eqn:Hup; simpl;
        rewrite ?elem_of_union, ?elem_of_singleton; clear IH g s;
        intuition (subst; try congruence; eauto).
    + rewrite elem_of_cons. unfold classify.
      destruct (isupper0 sym) eqn:Hup; simpl;
        rewrite ?elem_of_union, ?elem_of_singleton; clear IH g s;
        intuition (subst; try congruence; eauto).
Qed.

Lemma addRule_grammar rule p : grammar (addRule rule p) = grammar p ++ [rule].
Proof.
  unfold addRule.
  destruct (classify_fold (rhs rule)
              (set_nonTerminals (λ n, {[lhs rule]} ∪ n)
                 (set_grammar (λ g, g ++ [rule]) p))) as (g & _).
  simpl in g. by case_decide.
Qed.

Lemma addRule_classified rule p : classified p → classified (addRule rule p).
Proof.
  intros (Ht & Hn). unfold classified, occursOnRhs, isLhs.
  rewrite addRule_grammar. unfold addRule.
  destruct (classify_fold (rhs rule)
              (set_nonTerminals (λ n, {[lhs rule]} ∪ n)
                 (set_grammar (λ g, g ++ [rule]) p))) as (_ & _ & t & n).
  simpl in t, n.
  assert (∀ P : GrammarRule → Prop,
            (∃ r, r ∈ grammar p ++ [rule] ∧ P r) ↔ (∃ r, r ∈ grammar p ∧ P r) ∨ P rule)
    as Hex.
  { intros P. split.
    - intros (r & [?|Hr%list_elem_of_singleton]%elem_of_app & ?); [left; eauto|].
      subst. by right.
    - intros [(r & ? & ?)|?]; [exists r|exists rule]; set_solver. }
  split; intros x.
  - transitivity (x ∈ terminals p ∨ x ∈ rhs rule ∧ isupper0 x = false).
    { case_decide; apply t. }
    rewrite Ht, Hex. unfold occursOnRhs. naive_solver.
  - transitivity ((x ∈ ({[lhs rule]} : gset string) ∪ nonTerminals p) ∨
                  x ∈ rhs rule ∧ isupper0 x = true).
    { case_decide; apply n. }
    rewrite elem_of_union, elem_of_singleton, Hn, !Hex. unfold isLhs, occursOnRhs.
    naive_solver.
Qed.

Lemma ruleOfLine_rhs line rule : ruleOfLine line = Some rule → rhs rule ≠ [].
Proof.
  unfold ruleOfLine. case_decide; [done|].
  destruct (split line []) as [|l [|arrow [|sym symbols]]]; try done.
  case_decide; [|done]. by intros [= <-].
Qed.

Lemma loadLines_classified lines p :
  classified p → classified (foldl loadLine p lines).
Proof.
  revert p. induction lines as [|l lines IH]; intros p Hc; simpl; [done|].
  apply IH. unfold loadLine. destruct (ruleOfLine l); [by apply addRule_classified|done].
Qed.

Lemma loadLines_rhs lines p :
  Forall (λ rule, rhs rule ≠ []) (grammar p) →
  Forall (λ rule, rhs rule ≠ []) (grammar (foldl loadLine p lines)).
Proof.
  revert p. induction lines as [|l lines IH]; intros p Hc; simpl; [done|].
  apply IH. unfold loadLine. destruct (ruleOfLine l) as [rule|] eqn:Hrule; [|done].
  rewrite addRule_grammar. apply Forall_app. split; [done|].
  constructor; [by eapply ruleOfLine_rhs|constructor].
Qed.

Lemma loadGrammar_classified contents : classified (loadGrammar contents newParser).
Proof.
  apply loadLines_classified. unfold classified, occursOnRhs, isLhs. simpl.
  split; intros x; set_solver.
Qed.

Lemma loadGrammar_rhs contents :
  Forall (λ rule, rhs rule ≠ []) (grammar (loadGrammar contents newParser)).
Proof. apply loadLines_rhs. constructor. Qed.

(** ** Where the end marker does reach FOLLOW of the start symbol *)

Lemma computeFollowOf_rhs_keeps nonTerminal ruleLhs symbols follow p :
  follow ⊆ (computeFollowOf_rhs nonTerminal ruleLhs symbols follow p).1.
Proof.
  revert follow p. induction symbols as [|sym suffix IH]; intros follow p; [done|].
  cbn [computeFollowOf_rhs]. case_decide; [|apply IH].
  destruct suffix as [|next suffix'].
  - simpl. set_solver.
  - destruct (computeFirstOf (next :: suffix') p) as [firstOfNext p1].
    case_decide; unfold index_followSet; cbv beta iota zeta;
      (etrans; [|apply IH]); set_solver.
Qed.

Lemma computeFollowOf_rules_keeps nonTerminal rules follow p :
  follow ⊆ (computeFollowOf_rules nonTerminal rules follow p).1.
Proof.
  revert follow p. induction rules as [|rule rules IH]; intros follow p; simpl; [done|].
  pose proof (computeFollowOf_rhs_keeps nonTerminal (lhs rule) (rhs rule) follow p) as H.
  destruct (computeFollowOf_rhs _ _ _ _ _) as [follow1 p1]. simpl in H.
  etrans; [exact H|apply IH].
Qed.

(** Line 114. *)
Lemma computeFollowOf_start p : endMarker ∈ (computeFollowOf (startSymbol p) p).1.
Proof.
  unfold computeFollowOf. rewrite decide_True by done.
  apply computeFollowOf_rules_keeps. set_solver.
Qed.

Lemma computeFollow_rhs_start symbols p changed :
  startSymbol p ∈ nonTerminals p → startSymbol p ∈ symbols →
  endMarker ∈ FOLLOW (computeFollow_rhs symbols p changed).1 (startSymbol p).
Proof.
  revert p changed. induction symbols as [|sym symbols IH]; intros p changed Hnt Hin;
    [by apply elem_of_nil in Hin|].
  simpl.
  pose proof (computeFollow_symbol_grows ∅ sym p) as ((_ & _ & n & s) & _).
  pose proof (computeFollow_symbol_FOLLOW sym p (startSymbol p)) as Hstep.
  destruct (computeFollow_symbol sym p) as [p1 grew]. simpl in *.
  destruct (decide (sym = startSymbol p)) as [->|Hne].
  - apply (computeFollow_rhs_le symbols p1). rewrite Hstep.
    rewrite decide_True by done. pose proof (computeFollowOf_start p). set_solver.
  - apply elem_of_cons in Hin as [?|Hin]; [congruence|].
    rewrite <- s. apply IH; [by rewrite s, n|by rewrite s].
Qed.

Lemma computeFollow_rules_start rules p changed :
  startSymbol p ∈ nonTerminals p → startSymbol p ∈ rules ≫= rhs →
  endMarker ∈ FOLLOW (computeFollow_rules rules p changed).1 (startSymbol p).
Proof.
  revert p changed. induction rules as [|rule rules IH]; intros p changed Hnt Hin;
    [by apply elem_of_nil in Hin|].
  simpl in *.
  pose proof (computeFollow_rhs_grows ∅ (rhs rule) p changed) as ((_ & _ & n & s) & _).
  pose proof (computeFollow_rhs_start (rhs rule) p changed Hnt) as Hhere.
  destruct (computeFollow_rhs (rhs rule) p changed) as [p1 changed1]. simpl in *.
  apply elem_of_app in Hin as [Hin|Hin].
  - by apply (computeFollow_rules_le rules p1), Hhere.
  - rewrite <- s. apply IH; [by rewrite s, n|by rewrite s].
Qed.

(** The end marker is stored for a start symbol that some right-hand side
    mentions. *)
Lemma followRun_start_on_rhs K p q :
  followRun K p q →
  startSymbol p ∈ nonTerminals p → startSymbol p ∈ rhsSymbols p →
  endMarker ∈ FOLLOW q (startSymbol q).
Proof.
  intros Hrun Hnt Hin.
  pose proof (followRun_grows ∅ _ _ _ Hrun) as ((_ & _ & _ & s) & _).
  rewrite s.
  assert (endMarker ∈ FOLLOW (computeFollow_pass p).1 (startSymbol p)) as Hpass.
  { by apply computeFollow_rules_start. }
  destruct Hrun as [p q Hq|K p p' q Hp' Hrun].
  - by rewrite Hq in Hpass.
  - rewrite Hp' in Hpass. simpl in Hpass.
    destruct (followRun_grows ∅ _ _ _ Hrun) as (_ & _ & _ & Hle & _). by apply Hle.
Qed.

(** ** What a returning call has written *)

Lemma parseStep_results p input parseStack index result errFile cout :
  parseStep p input parseStack index = Stop (Returned result errFile cout) →
  (result = true ∧ errFile = "" ∧ cout = "YES" +:+ nl) ∨
  (result = false ∧ parseStack = [] ∧ errFile = "" ∧ cout = "") ∨
  (result = false ∧ cout = "NO" +:+ nl ∧
   ((∃ l top found, errFile = mismatchMessage l top found) ∨
    (∃ l literal, errFile = noEntryMessage l literal))).
Proof.
  unfold parseStep. destruct parseStack as [|top below].
  { intros [= <- <- <-]. right. by left. }
  destruct (input !! index) as [tok|]; [|done]. simpl.
  repeat (case_decide || case_match); intros ?; simplify_eq;
    first [by left|right; right; split; [done|]; split; [done|]; eauto].
Qed.

Lemma parseLoop_results fuel p input parseStack index result errFile cout :
  parseLoop fuel p input parseStack index = Some (Returned result errFile cout) →
  (result = true ∧ errFile = "") ∨
  (result = false ∧ errFile = "" ∧ cout = "") ∨
  (result = false ∧
   ((∃ l top found, errFile = mismatchMessage l top found) ∨
    (∃ l literal, errFile = noEntryMessage l literal))).
Proof.
  revert parseStack index. induction fuel as [|fuel IH]; intros parseStack index; [done|].
  simpl. destruct (parseStep p input parseStack index) as [s i|r] eqn:Hstep; [apply IH|].
  intros [= ->]. apply parseStep_results in Hstep. naive_solver.
Qed.

(** ** The scenarios of the specification that the code agrees with *)

Example scenario1_accepts (fuel : nat) :
  run (3 + fuel) grammar_S_a [mkToken 1 "a" "a"] =
    Some (Returned true "" ("YES" +:+ nl)).
Proof. apply (run_fuel_mono 3); [|lia]. vm_compute. reflexivity. Qed.

Example scenario3_accepts (fuel : nat) :
  run (5 + fuel) grammar_nullable [mkToken 1 "b" "b"] =
    Some (Returned true "" ("YES" +:+ nl)).
Proof. apply (run_fuel_mono 5); [|lia]. vm_compute. reflexivity. Qed.

(** ** Where the parser leaves the vector *)

(** The only read outside of [input] is that of line 202 at [index = 0],
    under a first token whose line is negative or whose literal is "$": the
    appended token when the stream is empty. *)
Lemma parseLoop_out_of_bounds fuel p tokens parseStack index :
  index ≤ length tokens →
  parseLoop fuel p (tokens ++ [endToken]) parseStack index = Some OutOfBounds →
  index = 0 ∧ ∃ tok, (tokens ++ [endToken]) !! 0 = Some tok ∧ ¬ plainToken tok.
Proof.
  revert parseStack index. induction fuel as [|fuel IH]; intros parseStack index Hle;
    [done|].
  simpl. unfold parseStep. destruct parseStack as [|top below]; [done|].
  destruct (lookup_lt_is_Some_2 (tokens ++ [endToken]) index) as (tok & Htok).
  { rewrite length_app. simpl. lia. }
  rewrite Htok. simpl.
  destruct (decide (top = "$" ∧ type tok = "$")) as [|Hacc]; [done|].
  destruct (decide (top = type tok)) as [Hshift|_].
  - intros Hrun. apply IH in Hrun as (? & _); [done|].
    destruct (decide (index = length tokens)) as [->|]; [|lia].
    rewrite list_lookup_middle in Htok by done. injection Htok as <-.
    simpl in *. naive_solver.
  - destruct (isTerminal p top); [done|].
    destruct (parseTable p !! (top, type tok)); [by apply IH|].
    destruct index as [|i].
    + intros Hrun. split; [done|]. exists tok. split; [done|].
      intros (Hline & Hvalue). simpl in Hrun.
      rewrite (decide_False (P := (line tok < 0)%Z)) in Hrun by lia.
      by rewrite (decide_False (P := value tok = "$")) in Hrun by done.
    + simpl. destruct (lookup_lt_is_Some_2 (tokens ++ [endToken]) i) as (prev & ->).
      { rewrite length_app. simpl. lia. }
      simpl. by repeat case_decide.
Qed.

Lemma parseTokens_out_of_bounds fuel p tokens :
  parseTokens fuel p tokens = Some OutOfBounds →
  ∃ tok, (tokens ++ [endToken]) !! 0 = Some tok ∧ ¬ plainToken tok.
Proof.
  intros Hrun. apply parseLoop_out_of_bounds in Hrun as (_ & ?); [done|lia].
Qed.

(** * The claims of the specification *)

(** ** Scenario 2: grammar [S -> a], tokens [1 b b] *)

(** C1, as stated, fails: whatever the fuel, the call does not reject with
    the mismatch diagnostic "Syntax error at line 1: expected 'a' but found
    'b'". *)
Lemma scenario2_not_the_mismatch_diagnostic :
  ¬ ∃ fuel cout,
      run fuel grammar_S_a [mkToken 1 "b" "b"] =
        Some (Returned false
                ("Syntax error at line 1: expected 'a' but found 'b'" +:+ nl) cout).
Proof.
  intros (fuel & cout & Hrun).
  assert (run 2 grammar_S_a [mkToken 1 "b" "b"] =
            Some (Returned false (noEntryMessage 1 "b") ("NO" +:+ nl))) as H2
    by (vm_compute; reflexivity).
  pose proof (run_fuel_unique _ _ _ _ _ _ Hrun H2) as Heq.
  vm_compute in Heq. discriminate Heq.
Qed.

(** C1, amended: for the grammar [S -> a] and the single token of line 1,
    type 'b' and literal 'b', [parseTokens] rejects, and the diagnostic it
    writes is that of the missing table entry, "Syntax error at line 1:
    unexpected token 'b'": the start symbol has no entry for 'b', so that
    the terminal 'a' is never pushed. *)
Theorem scenario2_rejects_unexpected_token (fuel : nat) :
  run (2 + fuel) grammar_S_a [mkToken 1 "b" "b"] =
    Some (Returned false ("Syntax error at line 1: unexpected token 'b'" +:+ nl)
                   ("NO" +:+ nl)).
Proof.
  apply (run_fuel_mono 2); [|lia]. vm_compute. reflexivity.
Qed.

(** ** FIRST of the empty sequence *)

(** C2, as stated, fails: on the object [main] starts from, [computeFirstOf]
    of the empty sequence is not the singleton of the epsilon marker. *)
Lemma computeFirstOf_nil_not_epsilon :
  ¬ ∀ p, (computeFirstOf [] p).1 = {[epsilon]}.
Proof.
  intros H. specialize (H newParser). simpl in H.
  assert (epsilon ∈ (∅ : gset string)) as Hin by (rewrite H; set_solver).
  set_solver.
Qed.

(** C2, amended: for every object, [computeFirstOf] of the empty sequence
    is the empty set; no rule that [loadGrammar] stores has an empty
    right-hand side (line 52), the empty production being written with the
    symbol "epsilon", and for a stored rule whose right-hand side is that
    symbol alone, [computeFirstOf] of the right-hand side is {epsilon} in
    every object that has the terminals of the loaded grammar. *)
Theorem computeFirstOf_nil_and_epsilon (p : LL1Parser) :
  (computeFirstOf [] p).1 = ∅ ∧
  ∀ contents rule,
    rule ∈ grammar (loadGrammar contents newParser) →
    rhs rule ≠ [] ∧
    (rhs rule = [epsilon] →
     terminals p = terminals (loadGrammar contents newParser) →
     (computeFirstOf (rhs rule) p).1 = {[epsilon]}).
Proof.
  split; [done|]. intros contents rule Hrule. split.
  - pose proof (loadGrammar_rhs contents) as Hall.
    rewrite Forall_forall in Hall. by apply Hall.
  - intros Hrhs Ht. rewrite Hrhs.
    destruct (loadGrammar_classified contents) as (Hterm & _).
    assert (epsilon ∈ terminals p) as Heps.
    { rewrite Ht. apply Hterm. split; [|done].
      exists rule. split; [done|]. rewrite Hrhs. set_solver. }
    unfold computeFirstOf. simpl. unfold isTerminal.
    rewrite bool_decide_eq_true_2 by done. simpl. set_solver.
Qed.

Lemma computeFirstOf_nil_and_epsilon_witness :
  let p := loadGrammar grammar_nullable newParser in
  mkRule "A" [epsilon] ∈ grammar p ∧
  (computeFirstOf [epsilon] p).1 = {[epsilon]}.
Proof.
  intros p.
  assert (mkRule "A" [epsilon] ∈ grammar p) as Hin.
  { by_evaluation. }
  split; [exact Hin|].
  destruct (computeFirstOf_nil_and_epsilon p) as (_ & H).
  destruct (H grammar_nullable (mkRule "A" [epsilon]) Hin) as (_ & Heps).
  apply Heps; reflexivity.
Defined.

(** ** FOLLOW of the start symbol *)

(** C3 fails on the code: for the grammar [S -> a] the two fixed points end,
    and the object they leave has no FOLLOW entry for the start symbol [S],
    so that the end marker is not in the set that [buildParseTable] reads.
    [computeFollow] stores a set only for the symbols it meets on a
    right-hand side, and [S] is on none. *)
Theorem follow_of_start_lacks_end_marker (fuel : nat) :
  ∃ p, computeSets (2 + fuel) grammar_S_a = Some p ∧
       startSymbol p = "S" ∧
       followSet p !! startSymbol p = None ∧
       endMarker ∉ FOLLOW p (startSymbol p).
Proof.
  assert (∃ p, computeSets 2 grammar_S_a = Some p ∧ startSymbol p = "S" ∧
               followSet p !! "S" = None) as (p & Hp & Hs & Hf).
  { eexists. split; [vm_compute; reflexivity|]. split; reflexivity. }
  exists p. split; [apply (computeSets_fuel_mono 2); [done|lia]|].
  split; [done|]. rewrite Hs. split; [done|].
  unfold FOLLOW, stored. rewrite Hf. set_solver.
Qed.

(** ** The classification of the right-hand side symbols *)

(** C4, as stated, fails: in the grammar [S -> A] the symbol [A] is on a
    right-hand side and is the left-hand side of no rule, and [loadGrammar]
    makes it a nonterminal. *)
Lemma loadGrammar_not_classifiedByLhs :
  ¬ classifiedByLhs (loadGrammar grammar_S_A newParser).
Proof.
  intros H. destruct (H "A") as ((Hlhs & _) & _).
  { exists (mkRule "S" ["A"]). split; by_evaluation. }
  destruct Hlhs as (rule & Hrule & Hl); [by_evaluation|].
  vm_compute in Hrule. apply list_elem_of_singleton in Hrule. by subst.
Qed.

(** C4, amended: after [loadGrammar], a symbol that occurs on some rule's
    right-hand side is in the nonterminal set if and only if its first
    character is an uppercase letter or it is the left-hand side of some
    rule, and it is in the terminal set if and only if its first character
    is not an uppercase letter. *)
Theorem loadGrammar_classifies_by_case (contents x : string) :
  let p := loadGrammar contents newParser in
  occursOnRhs p x →
  (x ∈ nonTerminals p ↔ isupper0 x = true ∨ isLhs p x) ∧
  (x ∈ terminals p ↔ isupper0 x = false).
Proof.
  intros p Hocc. destruct (loadGrammar_classified contents) as (Ht & Hn).
  fold p in Ht, Hn. rewrite Ht, Hn. naive_solver.
Qed.

Lemma loadGrammar_classifies_by_case_witness :
  let p := loadGrammar grammar_S_A newParser in
  occursOnRhs p "A" ∧ "A" ∈ nonTerminals p ∧ "A" ∉ terminals p.
Proof.
  intros p.
  assert (occursOnRhs p "A") as Hocc.
  { exists (mkRule "S" ["A"]). split; by_evaluation. }
  destruct (loadGrammar_classifies_by_case grammar_S_A "A" Hocc) as (Hn & Ht).
  split; [exact Hocc|]. split.
  - apply Hn. left. reflexivity.
  - intros Hin. apply Ht in Hin. discriminate Hin.
Defined.

(** ** Conflicts in the table *)

(** C5: whatever the object [buildParseTable] starts from, a key that some
    rule claims is mapped, when [buildParseTable] is done, to the rule that
    comes last in the grammar among those that claim it (in particular when
    several rules claim it).  [buildParseTable] yields the object and
    nothing else: there is no channel on which a conflict could be
    reported. *)
Theorem buildParseTable_last_claim_wins (p : LL1Parser)
    (before : list GrammarRule) (rule : GrammarRule) (after : list GrammarRule)
    (N t : string) :
  grammar p = before ++ rule :: after →
  claims p rule N t →
  (∀ r, r ∈ after → ¬ claims p r N t) →
  parseTable (buildParseTable p) !! (N, t) = Some rule.
Proof.
  intros Hg Hclaim Hlast. unfold buildParseTable. rewrite Hg.
  apply (buildParseTable_rules_last p); [by repeat split|done|done].
Qed.

Lemma buildParseTable_last_claim_wins_witness :
  claims sets_conflict (mkRule "S" ["a"]) "S" "a" ∧
  claims sets_conflict (mkRule "S" ["a"; "b"]) "S" "a" ∧
  parseTable (buildParseTable sets_conflict) !! ("S", "a") = Some (mkRule "S" ["a"; "b"]).
Proof.
  assert (claims sets_conflict (mkRule "S" ["a"; "b"]) "S" "a") as Hlast.
  { split; [reflexivity|by_evaluation]. }
  split; [split; [reflexivity|by_evaluation]|]. split; [exact Hlast|].
  apply (buildParseTable_last_claim_wins sets_conflict [mkRule "S" ["a"]]
           (mkRule "S" ["a"; "b"]) [] "S" "a").
  - vm_compute. reflexivity.
  - exact Hlast.
  - intros r Hr. apply elem_of_nil in Hr. destruct Hr.
Defined.

(** ** The diagnostic of the missing entry *)

Lemma previousToken_Some input index tok :
  input !! index = Some tok → index ≠ 0 →
  ∃ prev, previousToken input index = Some prev ∧ input !! (index - 1) = Some prev.
Proof.
  intros Htok Hne. destruct index as [|i]; [done|]. simpl.
  destruct (lookup_lt_is_Some_2 input i) as (prev & Hprev).
  { apply lookup_lt_Some in Htok. lia. }
  exists prev. by rewrite Nat.sub_0_r.
Qed.

Lemma parseStep_no_entry p input top below index tok :
  noEntryCase p input top index tok →
  (index = 0 → plainToken tok) →
  parseStep p input (top :: below) index =
    Stop (Returned false
            (noEntryMessage (shownLine tok (tokenBefore input index tok))
                            (shownValue tok (tokenBefore input index tok)))
            ("NO" +:+ nl)).
Proof.
  intros (Htok & Hacc & Hshift & Hterm & Hnone) Hplain.
  unfold parseStep. rewrite Htok. simpl.
  rewrite (decide_False (P := top = "$" ∧ type tok = "$")) by done.
  rewrite (decide_False (P := top = type tok)) by done.
  rewrite Hterm, Hnone. unfold shownLine, shownValue, tokenBefore.
  destruct (decide (index = 0)) as [->|Hne].
  - destruct (Hplain eq_refl) as (Hline & Hvalue).
    simpl. repeat case_decide; done || lia.
  - destruct (previousToken_Some _ _ _ Htok Hne) as (prev & -> & _). simpl.
    by repeat case_decide.
Qed.

(** C6, as stated, fails: with the table of the grammar [S -> a B], [B ->
    b] and the tokens [1 a a], [-5 c c], the round that finds [B] on the
    stack and the second token has no entry; the token is not the appended
    one, and yet the line of the diagnostic is that of the previous token. *)
Lemma diagnostic_not_by_position : ¬ noEntryByPosition.
Proof.
  intros H.
  specialize (H table_S_aB [mkToken 1 "a" "a"; mkToken (-5) "c" "c"] "B" ["$"] 1
                (mkToken (-5) "c" "c")).
  assert (noEntryCase table_S_aB
            ([mkToken 1 "a" "a"; mkToken (-5) "c" "c"] ++ [endToken]) "B" 1
            (mkToken (-5) "c" "c")) as Hcase.
  { split; [reflexivity|]. split; [by intros (? & ?)|]. split; [done|].
    split; vm_compute; reflexivity. }
  specialize (H Hcase). vm_compute in H. discriminate H.
Qed.

(** The round of the previous lemma is one that the call goes through. *)
Example negative_line_run (fuel : nat) :
  run (4 + fuel) grammar_S_aB [mkToken 1 "a" "a"; mkToken (-5) "c" "c"] =
    Some (Returned false ("Syntax error at line 1: unexpected token 'c'" +:+ nl)
                   ("NO" +:+ nl)).
Proof. apply (run_fuel_mono 4); [|lia]. vm_compute. reflexivity. Qed.

(** C6, amended: in the round that ends at line 202, when the current token
    is not the first of the input or is a plain one, the line of the
    diagnostic is that of the previous token exactly when the line of the
    current token is negative, and its literal is that of the previous token
    exactly when the literal of the current token is "$".  Hence, when every
    token of the stream has a line that is not negative and a literal other
    than "$", both come from the previous token when the current token is
    the appended one, and both from the current token otherwise. *)
Theorem no_entry_diagnostic (p : LL1Parser) (tokens : list Token)
    (top : string) (below : list string) (index : nat) (tok : Token) :
  let input := tokens ++ [endToken] in
  let prev := tokenBefore input index tok in
  noEntryCase p input top index tok →
  (index = 0 → plainToken tok) →
  parseStep p input (top :: below) index =
    Stop (Returned false (noEntryMessage (shownLine tok prev) (shownValue tok prev))
                   ("NO" +:+ nl)) ∧
  (Forall plainToken tokens →
   (index = length tokens →
      shownLine tok prev = line prev ∧ shownValue tok prev = value prev) ∧
   (index ≠ length tokens →
      shownLine tok prev = line tok ∧ shownValue tok prev = value tok)).
Proof.
  intros input prev Hcase Hplain. split; [by apply parseStep_no_entry|].
  intros Hall. destruct Hcase as (Htok & _). unfold input in Htok. split.
  - intros ->. rewrite list_lookup_middle in Htok by done.
    injection Htok as <-. done.
  - intros Hne.
    assert (index < length tokens) as Hlt.
    { apply lookup_lt_Some in Htok. rewrite length_app in Htok. simpl in Htok. lia. }
    rewrite lookup_app_l in Htok by done.
    rewrite Forall_forall in Hall.
    destruct (Hall tok) as (Hline & Hvalue); [by eapply list_elem_of_lookup_2|].
    unfold shownLine, shownValue. repeat case_decide; done || lia.
Qed.

Lemma no_entry_diagnostic_witness :
  parseStep table_S_aB ([mkToken 1 "a" "a"] ++ [endToken]) ["B"; "$"] 1 =
    Stop (Returned false (noEntryMessage 1 "a") ("NO" +:+ nl)).
Proof.
  refine (proj1 (no_entry_diagnostic table_S_aB [mkToken 1 "a" "a"] "B" ["$"] 1
                   endToken _ _)).
  - split; [reflexivity|]. split; [by intros (? & ?)|]. split; [done|].
    split; vm_compute; reflexivity.
  - intros H. discriminate H.
Defined.

(** ** The empty token stream *)

(** With no token but the appended one, a start symbol that is neither the
    end marker nor a terminal and has no entry for the end marker sends line
    202 before the start of the vector. *)
Lemma parseTokens_empty_stream p fuel :
  startSymbol p ≠ "$" → isTerminal p (startSymbol p) = false →
  parseTable p !! (startSymbol p, "$") = None →
  parseTokens (S fuel) p [] = Some OutOfBounds.
Proof.
  intros Hstart Hterm Hnone. unfold parseTokens. simpl. unfold parseStep. simpl.
  rewrite (decide_False (P := startSymbol p = "$" ∧ "$" = "$")) by naive_solver.
  rewrite (decide_False (P := startSymbol p = "$")) by done.
  by rewrite Hterm, Hnone.
Qed.

(** C7 fails on the code: for the grammar [S -> a], whose start symbol does
    not derive the empty word, and the empty token stream, [parseTokens]
    does not reject with a diagnostic: at line 202 [index] is 0 and
    [input[index - 1]] is read, which is no element of the vector. *)
Theorem empty_stream_reads_out_of_bounds (fuel : nat) :
  run (2 + fuel) grammar_S_a [] = Some OutOfBounds.
Proof. apply (run_fuel_mono 2); [|lia]. vm_compute. reflexivity. Qed.

(** ** One diagnostic per rejection *)

(** A call that accepts writes nothing to the error file. *)
Lemma parseLoop_accept_silent fuel p input parseStack index errFile cout :
  parseLoop fuel p input parseStack index = Some (Returned true errFile cout) →
  errFile = "".
Proof.
  revert parseStack index. induction fuel as [|fuel IH]; intros parseStack index; [done|].
  simpl. destruct (parseStep p input parseStack index) as [s i|r] eqn:Hstep; [apply IH|].
  intros [= ->]. unfold parseStep in Hstep.
  destruct parseStack as [|top below]; [done|].
  destruct (input !! index) as [tok|]; [|done]. simpl in Hstep.
  repeat (case_decide || case_match); by simplify_eq.
Qed.

(** C8 fails on the code: with the grammar [S -> a], [$ -> b] and the tokens
    [1 a a], [1 b b], the entry of [($, b)] takes the end marker off the
    stack, [b] is matched, and the loop ends on the empty stack: line 213
    returns false, and nothing was written to the error file (nor [NO] to
    the standard output, which the two other rejections print). *)
Theorem rejection_without_diagnostic (fuel : nat) :
  run (5 + fuel) grammar_dollar_rule [mkToken 1 "a" "a"; mkToken 1 "b" "b"] =
    Some (Returned false "" "").
Proof. apply (run_fuel_mono 5); [|lia]. vm_compute. reflexivity. Qed.

(** ** The two sets of symbols *)

(** C9, as stated, fails: after the line [a -> a epsilon $], [a] is in both
    sets and both markers are terminals. *)
Lemma loadGrammar_not_disjointWithoutMarkers :
  ¬ disjointWithoutMarkers (loadGrammar grammar_lowercase newParser).
Proof.
  intros (Hdisj & _). apply (Hdisj "a"); by_evaluation.
Qed.

Example loadGrammar_markers_are_terminals :
  let p := loadGrammar grammar_lowercase newParser in
  "a" ∈ terminals p ∧ "a" ∈ nonTerminals p ∧
  epsilon ∈ terminals p ∧ endMarker ∈ terminals p.
Proof. repeat split; by_evaluation. Qed.

(** C9, amended: after [loadGrammar] on an input all of whose rules have a
    left-hand side that begins with an uppercase letter, the terminal set
    and the nonterminal set are disjoint and the nonterminal set holds
    neither "epsilon" nor "$"; the terminal set holds "epsilon" (and
    likewise "$") exactly when it occurs on the right-hand side of some
    rule. *)
Theorem loadGrammar_disjoint_uppercase (contents : string) :
  let p := loadGrammar contents newParser in
  Forall (λ rule, isupper0 (lhs rule) = true) (grammar p) →
  terminals p ## nonTerminals p ∧
  (epsilon ∉ nonTerminals p) ∧ (endMarker ∉ nonTerminals p) ∧
  (epsilon ∈ terminals p ↔ occursOnRhs p epsilon) ∧
  (endMarker ∈ terminals p ↔ occursOnRhs p endMarker).
Proof.
  intros p Hupper. destruct (loadGrammar_classified contents) as (Ht & Hn).
  fold p in Ht, Hn. rewrite Forall_forall in Hupper.
  assert (∀ x, x ∈ nonTerminals p → isupper0 x = true) as Hnup.
  { intros x [(rule & Hrule & <-)|(_ & ?)]%Hn; [by apply Hupper|done]. }
  split; [|split; [|split; [|split]]].
  - intros x (_ & Hlow)%Ht Hup%Hnup. congruence.
  - intros Hin%Hnup. discriminate Hin.
  - intros Hin%Hnup. discriminate Hin.
  - rewrite Ht. naive_solver.
  - rewrite Ht. naive_solver.
Qed.

Lemma loadGrammar_disjoint_uppercase_witness :
  let p := loadGrammar grammar_nullable newParser in
  terminals p ## nonTerminals p ∧ epsilon ∈ terminals p.
Proof.
  intros p.
  assert (Forall (λ rule, isupper0 (lhs rule) = true) (grammar p)) as Hupper.
  { by_evaluation. }
  destruct (loadGrammar_disjoint_uppercase grammar_nullable Hupper)
    as (Hdisj & _ & _ & Heps & _).
  split; [exact Hdisj|]. apply Heps.
  exists (mkRule "A" [epsilon]). split; by_evaluation.
Defined.

(** ** The two fixed points *)

(** C10: from every object, the loop of [computeFirst] ends after some
    number [K1] of passes (it returns with [K1] passes allowed and with no
    fewer) in the object [p1] that [K1] passes give, and every state it goes
    through, after [k < K1] full passes and a prefix [done] of the rules in
    the next one, has its stored FIRST sets within those of [p1]; from [p1],
    the loop of [computeFollow] ends after some number [K2] of passes in the
    object [p2], and every state it goes through, after [k < K2] full
    passes, the rules [done] and the positions [symbols] of the next rule,
    has its stored FOLLOW sets within those of [p2]; [computeFollow] leaves
    the FIRST sets as they are. *)
Theorem fixed_points_terminate_and_grow (p : LL1Parser) :
  ∃ K1 p1 K2 p2,
    computeFirst_passes K1 p = p1 ∧ computeFollow_passes K2 p1 = p2 ∧
    (∀ fuel, computeFirst fuel p = if decide (K1 ≤ fuel) then Some p1 else None) ∧
    (∀ k done rest, k < K1 → grammar p = done ++ rest →
       FIRST_le (computeFirst_prefix k done p) p1) ∧
    (∀ fuel, computeFollow fuel p1 = if decide (K2 ≤ fuel) then Some p2 else None) ∧
    (∀ k done rest symbols more,
       k < K2 → grammar p1 = done ++ rest → currentRhs rest = symbols ++ more →
       FOLLOW_le (computeFollow_prefix k done symbols p1) p2) ∧
    sameFIRST p1 p2.
Proof.
  destruct (computeFirst_terminates p) as (K1 & p1 & Hrun1).
  destruct (computeFollow_terminates p1) as (K2 & p2 & Hrun2).
  exists K1, p1, K2, p2.
  split; [by apply firstRun_passes|]. split; [by apply followRun_passes|].
  split; [by apply firstRun_fuel|].
  split; [intros; by eapply firstRun_prefix|].
  split; [by apply followRun_fuel|].
  split; [intros; by eapply followRun_prefix|].
  by destruct (followRun_grows ∅ _ _ _ Hrun2) as (_ & ? & _).
Qed.

(** On the grammar [S -> A b], [A -> a], [A -> epsilon]: three passes for
    FIRST, two for FOLLOW. *)
Example fixed_points_of_grammar_nullable :
  let p := loadGrammar grammar_nullable newParser in
  ∃ p1 p2,
    computeFirst 2 p = None ∧ computeFirst 3 p = Some p1 ∧
    computeFollow 1 p1 = None ∧ computeFollow 2 p1 = Some p2 ∧
    FIRST p2 "A" = {["a"; epsilon]} ∧ FOLLOW p2 "A" = {["b"]}.
Proof.
  eexists _, _. split; [vm_compute; reflexivity|].
  split; [vm_compute; reflexivity|].
  split; [vm_compute; reflexivity|].
  split; [vm_compute; reflexivity|].
  split; vm_compute; reflexivity.
Qed.

(** * Further properties of the code *)

(** ** [split] (lines 67-71) *)

Lemma append_cons c s r : String c s +:+ r = String c (s +:+ r).
Proof. reflexivity. Qed.

Lemma append_nil_r s : s +:+ "" = s.
Proof. induction s as [|c s IH]; [done|]. by rewrite append_cons, IH. Qed.

Lemma append_assoc s1 s2 s3 : (s1 +:+ s2) +:+ s3 = s1 +:+ (s2 +:+ s3).
Proof. induction s1 as [|c s1 IH]; [done|]. by rewrite !append_cons, IH. Qed.

Lemma append_eq_nil s1 s2 : s1 +:+ s2 = "" → s1 = "" ∧ s2 = "".
Proof. destruct s1; [done|]. by rewrite append_cons. Qed.

Lemma spaceFree_app s1 s2 :
  spaceFree (s1 +:+ s2) = spaceFree s1 && spaceFree s2.
Proof.
  induction s1 as [|c s1 IH]; [done|]. rewrite append_cons. simpl.
  rewrite IH. by destruct (isspace c).
Qed.

(** What [split] adds does not depend on what [out] holds. *)
Lemma split_from_out s token out :
  split_from s token out = out ++ split_from s token [].
Proof.
  revert token out. induction s as [|c s IH]; intros token out; simpl.
  - case_decide; [by rewrite app_nil_r|done].
  - destruct (isspace c).
    + rewrite IH. rewrite (IH "" (if decide (token = "") then [] else [token])).
      case_decide; [done|]. by rewrite app_assoc.
    + apply IH.
Qed.

Lemma split_from_words s token :
  spaceFree token = true → Forall isWord (split_from s token []).
Proof.
  revert token. induction s as [|c s IH]; intros token Htoken; simpl.
  - case_decide; [constructor|]. by repeat constructor.
  - destruct (isspace c) eqn:Hc.
    + rewrite split_from_out. apply Forall_app. split; [|by apply IH].
      case_decide; [constructor|]. by repeat constructor.
    + apply IH. rewrite spaceFree_app, Htoken. simpl. by rewrite Hc.
Qed.

(** A word of the stream goes to [token] character by character. *)
Lemma split_from_word w rest token out :
  spaceFree w = true →
  split_from (w +:+ rest) token out = split_from rest (token +:+ w) out.
Proof.
  revert token. induction w as [|c w IH]; intros token Hw.
  - by rewrite append_nil_r.
  - simpl in Hw. apply andb_true_iff in Hw as (Hc%negb_true_iff & Hw).
    rewrite append_cons. simpl. rewrite Hc, IH by done.
    by rewrite append_assoc.
Qed.

Lemma split_from_unwords ws out :
  Forall isWord ws → split_from (unwords ws) "" out = out ++ ws.
Proof.
  intros Hws. revert out. induction Hws as [|w ws (Hne & Hw) Hws IH]; intros out.
  - simpl. by rewrite app_nil_r.
  - unfold unwords in *. destruct ws as [|w' ws].
    + simpl. rewrite <- (append_nil_r w) at 1. rewrite split_from_word by done.
      simpl. by rewrite decide_False.
    + change (String.concat " " (w :: w' :: ws))
        with (w +:+ String " " (String.concat " " (w' :: ws))).
      rewrite split_from_word by done. simpl.
      rewrite decide_False by done. rewrite IH. by rewrite <- app_assoc.
Qed.

(** X1: every element that [split] appends to [out] is a word: it is not
    empty and holds no space, tabulation or line break; [out] itself is kept
    as the front of the result. *)
Theorem split_appends_words (line : string) (out : list string) :
  ∃ words, split line out = out ++ words ∧ Forall isWord words.
Proof.
  exists (split line []). split; [apply split_from_out|].
  by apply split_from_words.
Qed.

(** X2: [split] gives back the words of a line that was made of words with
    one space between two of them. *)
Theorem split_unwords (ws : list string) :
  Forall isWord ws → split (unwords ws) [] = ws.
Proof. intros Hws. by apply (split_from_unwords ws []). Qed.

Lemma split_unwords_witness :
  split (unwords ["S"; "->"; "A"; "b"]) [] = ["S"; "->"; "A"; "b"].
Proof.
  apply split_unwords. repeat constructor; done.
Defined.

(** ** [loadGrammar] (lines 45-64) *)

Lemma ruleOfLine_wordRule line rule : ruleOfLine line = Some rule → wordRule rule.
Proof.
  unfold ruleOfLine, split. case_decide; [done|].
  pose proof (split_from_words line "" eq_refl) as Hwords.
  destruct (split_from line "" []) as [|l [|arrow [|sym symbols]]]; try done.
  case_decide; [|done]. intros [= <-].
  apply Forall_cons in Hwords as (Hl & Hwords).
  apply Forall_cons in Hwords as (_ & Hwords).
  split; [done|]. split; [done|done].
Qed.

Lemma loadLines_grammar lines p :
  grammar (foldl loadLine p lines) = grammar p ++ omap ruleOfLine lines.
Proof.
  revert p. induction lines as [|l lines IH]; intros p; simpl.
  - by rewrite app_nil_r.
  - rewrite IH. unfold loadLine. destruct (ruleOfLine l) as [rule|]; [|done].
    by rewrite addRule_grammar, <- app_assoc.
Qed.

(** X3: the rules that [loadGrammar] stores are those of the lines of the
    file that hold one, in the order of the file and after the rules the
    object had; a line that holds none (an empty one, one of fewer than
    three words, one whose second word is not the arrow) is passed over and
    the lines after it are still read. *)
Theorem loadGrammar_rules_in_file_order (contents : string) (p : LL1Parser) :
  grammar (loadGrammar contents p) = grammar p ++ omap ruleOfLine (getlines contents).
Proof. apply loadLines_grammar. Qed.

(** X4: the line that states a rule whose symbols are words is read back as
    that rule. *)
Theorem ruleOfLine_lineOfRule (rule : GrammarRule) :
  wordRule rule → ruleOfLine (lineOfRule rule) = Some rule.
Proof.
  intros (Hl & Hr & Hne). destruct rule as [l r]. simpl in *.
  destruct r as [|sym symbols]; [done|].
  unfold ruleOfLine, lineOfRule. simpl lhs. simpl rhs.
  rewrite decide_False.
  - unfold split. rewrite split_from_unwords; [simpl; by repeat case_decide|].
    constructor; [done|]. constructor; [done|done].
  - unfold unwords.
    change (String.concat " " (l :: "->" :: sym :: symbols))
      with (l +:+ String " " (String.concat " " ("->" :: sym :: symbols))).
    intros (-> & _)%append_eq_nil. by destruct Hl.
Qed.

Lemma ruleOfLine_lineOfRule_witness :
  ruleOfLine (lineOfRule (mkRule "S" ["A"; "b"])) = Some (mkRule "S" ["A"; "b"]).
Proof.
  apply ruleOfLine_lineOfRule. split; [done|]. split; [|done].
  repeat constructor; done.
Defined.

Lemma loadGrammar_wordRules contents :
  Forall wordRule (grammar (loadGrammar contents newParser)).
Proof.
  unfold loadGrammar. rewrite loadLines_grammar. simpl.
  apply Forall_forall. intros rule (line & _ & Hrule)%list_elem_of_omap.
  by eapply ruleOfLine_wordRule.
Qed.

(** X5: every rule that [loadGrammar] stores from a file has a left-hand
    side and right-hand side symbols that are words (not empty, without
    spaces), and at least one symbol on its right-hand side. *)
Theorem loadGrammar_stores_wordRules (contents : string) :
  Forall wordRule (grammar (loadGrammar contents newParser)).
Proof. apply loadGrammar_wordRules. Qed.

Lemma addRule_startSymbol rule p :
  startSymbol (addRule rule p) =
    if decide (startSymbol p = "") then lhs rule else startSymbol p.
Proof.
  unfold addRule.
  destruct (classify_fold (rhs rule)
              (set_nonTerminals (λ n, {[lhs rule]} ∪ n)
                 (set_grammar (λ g, g ++ [rule]) p))) as (_ & s & _).
  simpl in s. rewrite s. by case_decide.
Qed.

(** The start symbol is the left-hand side of the first rule, once there is
    one. *)
Lemma loadLines_startSymbol lines p :
  Forall (λ rule, lhs rule ≠ "") (grammar p) →
  startSymbol p = from_option lhs "" (head (grammar p)) →
  startSymbol (foldl loadLine p lines) =
    from_option lhs "" (head (grammar (foldl loadLine p lines))).
Proof.
  revert p. induction lines as [|l lines IH]; intros p Hlhs Hstart; simpl; [done|].
  unfold loadLine at 2 4. destruct (ruleOfLine l) as [rule|] eqn:Hrule; [|by apply IH].
  apply ruleOfLine_wordRule in Hrule as ((Hne & _) & _).
  apply IH; rewrite addRule_grammar.
  - apply Forall_app. split; [done|]. by repeat constructor.
  - rewrite addRule_startSymbol, Hstart.
    destruct (grammar p) as [|first rules]; simpl; [done|].
    apply Forall_cons in Hlhs as (Hfirst & _). by rewrite decide_False.
Qed.

(** X6: after [loadGrammar] on the object of [main], the start symbol is the
    left-hand side of the first rule of the grammar, whatever the later
    rules are, and it is a nonterminal; it is the empty string exactly when
    no line of the file held a rule. *)
Theorem loadGrammar_startSymbol (contents : string) :
  let p := loadGrammar contents newParser in
  startSymbol p = from_option lhs "" (head (grammar p)) ∧
  (grammar p ≠ [] → startSymbol p ∈ nonTerminals p) ∧
  (startSymbol p = "" ↔ grammar p = []).
Proof.
  intros p.
  assert (startSymbol p = from_option lhs "" (head (grammar p))) as Hstart.
  { apply loadLines_startSymbol; [constructor|done]. }
  pose proof (loadGrammar_wordRules contents) as Hwords. fold p in Hwords.
  split; [done|]. rewrite Hstart. destruct (grammar p) as [|first rules] eqn:Hg.
  - by repeat split.
  - apply Forall_cons in Hwords as (((Hne & _) & _) & _). simpl.
    split; [|by split].
    intros _. destruct (loadGrammar_classified contents) as (_ & Hn).
    apply Hn. left. exists first. fold p. rewrite Hg. split; [set_solver|done].
Qed.

Lemma newlineFree_line l rest cur :
  newlineFree l = true →
  getlines_from (l +:+ rest) cur = getlines_from rest (cur +:+ l).
Proof.
  revert cur. induction l as [|c l IH]; intros cur Hl.
  - by rewrite append_nil_r.
  - simpl in Hl. apply andb_true_iff in Hl as (Hc%negb_true_iff & Hl).
    apply bool_decide_eq_false in Hc.
    rewrite append_cons. simpl. rewrite decide_False by done.
    rewrite IH by done. by rewrite append_assoc.
Qed.

Lemma loadLine_empty p : loadLine p "" = p.
Proof. done. Qed.

Lemma loadLines_fileOf lines cur p :
  Forall (λ l, newlineFree l = true) lines →
  foldl loadLine p (getlines_from (fileOf lines) cur) =
    foldl loadLine p
      match lines with
      | [] => [cur]
      | l :: lines' => (cur +:+ l) :: lines'
      end.
Proof.
  intros Hlines. revert cur p.
  induction Hlines as [|l lines Hl Hlines IH]; intros cur p.
  - simpl. case_decide; [by subst|done].
  - unfold fileOf in *. destruct lines as [|l' lines].
    + simpl String.concat. rewrite <- (append_nil_r l) at 1.
      rewrite newlineFree_line by done. simpl.
      case_decide as Hcur; [by rewrite Hcur|done].
    + change (String.concat nl (l :: l' :: lines))
        with (l +:+ String "010" (String.concat nl (l' :: lines))).
      rewrite newlineFree_line by done. simpl. by rewrite IH.
Qed.

(** X7: on a file made of the given lines, none of which holds a line
    break, [loadGrammar] does to the object what the body of its loop does
    for the lines one after the other. *)
Theorem loadGrammar_fileOf (lines : list string) (p : LL1Parser) :
  Forall (λ l, newlineFree l = true) lines →
  loadGrammar (fileOf lines) p = foldl loadLine p lines.
Proof.
  intros Hlines. unfold loadGrammar, getlines. rewrite loadLines_fileOf by done.
  destruct lines; [done|done].
Qed.

Lemma loadGrammar_fileOf_witness :
  loadGrammar (fileOf ["S -> A b"; ""; "A -> a"]) newParser =
    foldl loadLine newParser ["S -> A b"; ""; "A -> a"].
Proof.
  apply loadGrammar_fileOf. repeat constructor.
Defined.

(** ** [computeFirst] (lines 96-109) *)

Lemma computeFirst_Some_firstRun fuel p q :
  computeFirst fuel p = Some q → ∃ K, K ≤ fuel ∧ firstRun K p q.
Proof.
  revert p. induction fuel as [|fuel IH]; intros p; [done|]. simpl.
  destruct (computeFirst_pass p) as [p1 changed] eqn:Hpass. destruct changed.
  - intros (K & HK & Hrun)%IH. exists (S K). split; [lia|]. by econstructor.
  - intros [= <-]. exists 1. split; [lia|]. by constructor.
Qed.

(** Line 106. *)
Lemma computeFirst_rule_flag rule p :
  (computeFirst_rule rule p).2 =
    bool_decide (size (FIRST p (lhs rule)) <
                 size (FIRST p (lhs rule) ∪ (computeFirstOf (rhs rule) p).1)).
Proof.
  unfold computeFirst_rule. simpl.
  pose proof (computeFirstOf_ext (rhs rule) p
                (set_firstSet (λ m, touch m (lhs rule)) p)) as Hext.
  destruct (computeFirstOf (rhs rule) _) as [firstOfRHS p2]; simpl in *.
  rewrite <- Hext; [done|done|]. intros k'. unfold FIRST; simpl. apply stored_touch.
Qed.

(** A rule that does not raise the flag finds FIRST of its right-hand side
    in the set of its left-hand side already, and changes no stored set. *)
Lemma computeFirst_rule_still rule p :
  (computeFirst_rule rule p).2 = false →
  (computeFirstOf (rhs rule) p).1 ⊆ FIRST p (lhs rule) ∧
  sameFIRST p (computeFirst_rule rule p).1.
Proof.
  rewrite computeFirst_rule_flag. intros Hflag%bool_decide_eq_false.
  assert (FIRST p (lhs rule) ∪ (computeFirstOf (rhs rule) p).1 = FIRST p (lhs rule))
    as Hsame.
  { symmetry. apply set_subseteq_size_eq; [set_solver|lia]. }
  split; [set_solver|].
  intros k. rewrite computeFirst_rule_FIRST. case_decide; [|done]. by subst.
Qed.

Lemma sameFIRST_trans p q r : sameFIRST p q → sameFIRST q r → sameFIRST p r.
Proof. intros H1 H2 k. by rewrite H2. Qed.

Lemma computeFirst_rule_terminals rule p :
  terminals (computeFirst_rule rule p).1 = terminals p.
Proof. by destruct (computeFirst_rule_grows ∅ rule p) as ((_ & ? & _) & _). Qed.

Lemma computeFirst_rules_still rules p changed :
  (computeFirst_rules rules p changed).2 = false →
  changed = false ∧
  sameFIRST p (computeFirst_rules rules p changed).1 ∧
  ∀ rule, rule ∈ rules → (computeFirstOf (rhs rule) p).1 ⊆ FIRST p (lhs rule).
Proof.
  revert p changed. induction rules as [|rule rules IH]; intros p changed; simpl.
  - intros ->. split; [done|]. split; [done|]. intros rule Hin. by apply elem_of_nil in Hin.
  - pose proof (computeFirst_rule_still rule p) as Hstill.
    pose proof (computeFirst_rule_terminals rule p) as Hterm.
    destruct (computeFirst_rule rule p) as [p1 grew]. simpl in *.
    intros (Hflag & Hsame & Hclosed)%IH.
    destruct grew; [done|]. destruct (Hstill eq_refl) as (Hhere & Hsame1).
    split; [done|]. split; [by eapply sameFIRST_trans|].
    intros r [->|Hin]%elem_of_cons; [done|].
    rewrite <- (computeFirstOf_ext (rhs r) p p1), <- (Hsame1 (lhs r)) by done.
    by apply Hclosed.
Qed.

(** Two objects with the same terminals and the same stored FIRST sets go
    through a pass alike. *)
Lemma computeFirst_rules_ext rules p q changed :
  terminals q = terminals p → sameFIRST p q →
  (computeFirst_rules rules q changed).2 = (computeFirst_rules rules p changed).2 ∧
  sameFIRST (computeFirst_rules rules p changed).1 (computeFirst_rules rules q changed).1.
Proof.
  revert p q changed. induction rules as [|rule rules IH]; intros p q changed Ht Hf;
    simpl; [done|].
  pose proof (computeFirst_rule_flag rule p) as Hflagp.
  pose proof (computeFirst_rule_flag rule q) as Hflagq.
  pose proof (computeFirst_rule_terminals rule p) as Htp.
  pose proof (computeFirst_rule_terminals rule q) as Htq.
  assert (sameFIRST (computeFirst_rule rule p).1 (computeFirst_rule rule q).1) as Hf1.
  { intros k. rewrite !computeFirst_rule_FIRST.
    by rewrite (computeFirstOf_ext (rhs rule) p q), (Hf (lhs rule)), (Hf k). }
  rewrite (computeFirstOf_ext (rhs rule) p q), (Hf (lhs rule)) in Hflagq by done.
  destruct (computeFirst_rule rule p) as [p1 grewp].
  destruct (computeFirst_rule rule q) as [q1 grewq]. simpl in *.
  assert (grewq = grewp) as -> by congruence.
  apply IH; [congruence|done].
Qed.

(** The last pass of a run leaves an object that is closed under the
    rules. *)
Lemma firstRun_closed K p q rule :
  firstRun K p q → rule ∈ grammar q →
  (computeFirstOf (rhs rule) q).1 ⊆ FIRST q (lhs rule).
Proof.
  induction 1 as [p q Hpass|K p p' q Hpass _ IH]; [|done].
  intros Hrule. pose proof (computeFirst_pass_grows ∅ p) as ((g & t & _) & _).
  pose proof (computeFirst_rules_still (grammar p) p false) as Hstill.
  unfold computeFirst_pass in *. rewrite Hpass in *. simpl in *.
  destruct (Hstill eq_refl) as (_ & Hsame & Hclosed).
  rewrite (computeFirstOf_ext (rhs rule) p q), (Hsame (lhs rule)) by done.
  apply Hclosed. by rewrite <- g.
Qed.

(** X8: when [computeFirst] returns, the stored FIRST sets are closed under
    the rules: for every rule, what [computeFirstOf] gives for its
    right-hand side is within the FIRST set of its left-hand side. *)
Theorem computeFirst_closed (fuel : nat) (p q : LL1Parser) (rule : GrammarRule) :
  computeFirst fuel p = Some q → rule ∈ grammar q →
  (computeFirstOf (rhs rule) q).1 ⊆ FIRST q (lhs rule).
Proof.
  intros (K & _ & Hrun)%computeFirst_Some_firstRun. by eapply firstRun_closed.
Qed.

Lemma computeFirst_closed_witness :
  let p := loadGrammar grammar_nullable newParser in
  ∃ q, computeFirst 3 p = Some q ∧
       (computeFirstOf ["A"; "b"] q).1 ⊆ FIRST q "S".
Proof.
  intros p. eexists. split; [vm_compute; reflexivity|].
  refine (computeFirst_closed 3 p _ (mkRule "S" ["A"; "b"]) _ _).
  - vm_compute. reflexivity.
  - by_evaluation.
Defined.

(** X9: [computeFirst] is idempotent: called on the object it returned, it
    returns after one pass, and the object it then returns has the same
    stored FIRST and FOLLOW sets, the same table and the same grammar. *)
Theorem computeFirst_idempotent (fuel : nat) (p q : LL1Parser) :
  computeFirst fuel p = Some q →
  ∃ q', computeFirst 1 q = Some q' ∧ readOnly q q'.
Proof.
  intros (K & _ & Hrun)%computeFirst_Some_firstRun.
  assert (∃ p0, computeFirst_pass p0 = (q, false)) as (p0 & Hpass).
  { clear -Hrun. induction Hrun; eauto. }
  pose proof (computeFirst_pass_grows ∅ p0) as ((g & t & _) & _).
  pose proof (computeFirst_rules_still (grammar p0) p0 false) as Hstill.
  unfold computeFirst_pass in *. rewrite Hpass in *. simpl in *.
  destruct (Hstill eq_refl) as (_ & Hsame & _).
  destruct (computeFirst_rules_ext (grammar p0) p0 q false t Hsame) as (Hflag & _).
  rewrite Hpass in Hflag. simpl in Hflag.
  pose proof (computeFirst_rules_grows ∅ (grammar q) q false) as (Hd & Ho & Hpt & _).
  pose proof (computeFirst_rules_still (grammar q) q false) as Hstillq.
  rewrite g in *. simpl. unfold computeFirst_pass. rewrite g.
  destruct (computeFirst_rules (grammar p0) q false) as [q' changed]. simpl in *.
  subst changed. exists q'. split; [done|].
  destruct (Hstillq eq_refl) as (_ & Hsameq & _).
  split; [done|]. split; [done|]. split; [done|done].
Qed.

Lemma computeFirst_idempotent_witness :
  let p := loadGrammar grammar_nullable newParser in
  let q := default newParser (computeFirst 3 p) in
  ∃ q', computeFirst 1 q = Some q' ∧ readOnly q q'.
Proof.
  intros p q. apply (computeFirst_idempotent 3 p q). vm_compute. reflexivity.
Defined.

(** *** The alphabet of the sets and the number of passes *)

Lemma firstRun_bound U K p q :
  firstRun K p q → firstBounded U p →
  K + firstMeasure p ≤ length (grammar p) * size U + 1.
Proof.
  induction 1 as [p q Hpass|K p p' q Hpass _ IH]; intros Hb.
  - pose proof (firstMeasure_bound U p Hb). lia.
  - pose proof (computeFirst_pass_grows U p) as ((g & _) & _ & _ & _ & Hb').
    pose proof (computeFirst_pass_measure U p) as Hm.
    rewrite Hpass in *. simpl in *. specialize (IH (Hb' Hb)). rewrite g in IH.
    specialize (Hm eq_refl). lia.
Qed.

Lemma firstBounded_terminals p :
  storedUnion (firstSet p) ⊆ terminals p → firstBounded (terminals p) p.
Proof.
  intros Hp. split; [done|]. intros k.
  pose proof (stored_subseteq_storedUnion (firstSet p) k). unfold FIRST. set_solver.
Qed.

(** X10: if the sets that [firstSet] stores hold terminals only (as when it
    stores none), so do those of the object that [computeFirst] returns:
    whatever a FIRST set holds is a terminal of the grammar, the symbol
    "epsilon" being one when a rule mentions it. *)
Theorem computeFirst_within_terminals (fuel : nat) (p q : LL1Parser) :
  storedUnion (firstSet p) ⊆ terminals p → computeFirst fuel p = Some q →
  ∀ k, FIRST q k ⊆ terminals q.
Proof.
  intros Hp (K & _ & Hrun)%computeFirst_Some_firstRun.
  destruct (firstRun_grows (terminals p) _ _ _ Hrun) as ((_ & t & _) & _ & _ & _ & Hb).
  destruct (Hb (firstBounded_terminals p Hp)) as (_ & Hq). by rewrite t.
Qed.

Lemma computeFirst_within_terminals_witness :
  let p := loadGrammar grammar_nullable newParser in
  ∃ q, computeFirst 3 p = Some q ∧ FIRST q "S" ⊆ terminals q.
Proof.
  intros p. eexists. split; [vm_compute; reflexivity|].
  refine (computeFirst_within_terminals 3 p _ _ _ "S").
  - by_evaluation.
  - vm_compute. reflexivity.
Defined.

(** X11: on an object whose [firstSet] stores sets of terminals only,
    [computeFirst] returns within as many passes as there are rules times
    terminals, and one. *)
Theorem computeFirst_passes_bound (p : LL1Parser) :
  storedUnion (firstSet p) ⊆ terminals p → is_Some (computeFirst (firstPasses p) p).
Proof.
  intros Hp. destruct (computeFirst_terminates p) as (K & q & Hrun).
  pose proof (firstRun_bound (terminals p) _ _ _ Hrun (firstBounded_terminals p Hp)).
  rewrite (firstRun_fuel _ _ _ Hrun). unfold firstPasses.
  rewrite decide_True by lia. by eexists.
Qed.

Lemma computeFirst_passes_bound_witness :
  is_Some (computeFirst 10 (loadGrammar grammar_nullable newParser)).
Proof.
  refine (computeFirst_passes_bound (loadGrammar grammar_nullable newParser) _).
  by_evaluation.
Defined.

(** ** [computeFollow] (lines 138-153) *)

Lemma computeFollow_Some_followRun fuel p q :
  computeFollow fuel p = Some q → ∃ K, K ≤ fuel ∧ followRun K p q.
Proof.
  revert p. induction fuel as [|fuel IH]; intros p; [done|]. simpl.
  destruct (computeFollow_pass p) as [p1 changed] eqn:Hpass. destruct changed.
  - intros (K & HK & Hrun)%IH. exists (S K). split; [lia|]. by econstructor.
  - intros [= <-]. exists 1. split; [lia|]. by constructor.
Qed.

Lemma followRun_bound U K p q :
  followRun K p q → followBounded U p →
  K + followMeasure p ≤ length (rhsSymbols p) * size U + 1.
Proof.
  induction 1 as [p q Hpass|K p p' q Hpass _ IH]; intros Hb.
  - pose proof (followMeasure_bound U p Hb). lia.
  - pose proof (computeFollow_pass_grows U p) as ((g & _) & _ & _ & _ & Hb').
    pose proof (computeFollow_pass_measure U p) as Hm.
    rewrite Hpass in *. simpl in *. specialize (IH (Hb' Hb)).
    unfold rhsSymbols in *. rewrite g in IH.
    specialize (Hm eq_refl). lia.
Qed.

Lemma followBounded_terminals p :
  storedUnion (firstSet p) ⊆ terminals p →
  storedUnion (followSet p) ⊆ {[endMarker]} ∪ terminals p →
  followBounded ({[endMarker]} ∪ terminals p) p.
Proof.
  intros Hf Ho. split; [set_solver|]. split; [set_solver|]. split; intros k.
  - pose proof (stored_subseteq_storedUnion (firstSet p) k). unfold FIRST. set_solver.
  - pose proof (stored_subseteq_storedUnion (followSet p) k). unfold FOLLOW. set_solver.
Qed.

(** X12: if the sets that [firstSet] stores hold terminals only and those
    that [followSet] stores terminals and the end marker only, the FOLLOW sets of the
    object that [computeFollow] returns hold terminals and the end marker
    only, and its FIRST sets are those of the object it was given. *)
Theorem computeFollow_within_terminals (fuel : nat) (p q : LL1Parser) :
  storedUnion (firstSet p) ⊆ terminals p →
  storedUnion (followSet p) ⊆ {[endMarker]} ∪ terminals p →
  computeFollow fuel p = Some q →
  (∀ k, FOLLOW q k ⊆ {[endMarker]} ∪ terminals q) ∧ sameFIRST p q.
Proof.
  intros Hf Ho (K & _ & Hrun)%computeFollow_Some_followRun.
  destruct (followRun_grows ({[endMarker]} ∪ terminals p) _ _ _ Hrun)
    as ((_ & t & _) & Hsame & _ & _ & Hb).
  destruct (Hb (followBounded_terminals p Hf Ho)) as (_ & _ & _ & Hq).
  split; [by rewrite t|done].
Qed.

Lemma computeFollow_within_terminals_witness :
  let p := default newParser (computeFirst 3 (loadGrammar grammar_nullable newParser)) in
  ∃ q, computeFollow 2 p = Some q ∧ FOLLOW q "A" ⊆ {[endMarker]} ∪ terminals q.
Proof.
  intros p. eexists. split; [vm_compute; reflexivity|].
  refine (proj1 (computeFollow_within_terminals 2 p _ _ _ _) "A").
  - by_evaluation.
  - by_evaluation.
  - vm_compute. reflexivity.
Defined.

Lemma size_endMarker_terminals (T : gset string) :
  size ({[endMarker]} ∪ T) ≤ size T + 1.
Proof.
  rewrite size_union_alt, size_singleton.
  pose proof (subseteq_size (T ∖ {[endMarker]}) T). set_solver by lia.
Qed.

(** X13: on such an object, [computeFollow] returns within as many passes
    as there are right-hand side positions times terminals and end marker,
    and one. *)
Theorem computeFollow_passes_bound (p : LL1Parser) :
  storedUnion (firstSet p) ⊆ terminals p →
  storedUnion (followSet p) ⊆ {[endMarker]} ∪ terminals p →
  is_Some (computeFollow (followPasses p) p).
Proof.
  intros Hf Ho. destruct (computeFollow_terminates p) as (K & q & Hrun).
  pose proof (followRun_bound _ _ _ _ Hrun (followBounded_terminals p Hf Ho)).
  pose proof (size_endMarker_terminals (terminals p)).
  rewrite (followRun_fuel _ _ _ Hrun). unfold followPasses.
  rewrite decide_True by nia. by eexists.
Qed.

Lemma computeFollow_passes_bound_witness :
  is_Some (computeFollow 17
             (default newParser (computeFirst 3 (loadGrammar grammar_nullable newParser)))).
Proof.
  refine (computeFollow_passes_bound
            (default newParser (computeFirst 3 (loadGrammar grammar_nullable newParser)))
            _ _).
  - by_evaluation.
  - by_evaluation.
Defined.

(** *** The fixed point of [computeFollow] *)

Lemma readOnly_sameView p q : readOnly p q → sameView p q.
Proof. by intros (? & ? & ? & _). Qed.

Lemma sameView_refl p : sameView p p.
Proof. by repeat split. Qed.

Lemma sameView_trans p q r : sameView p q → sameView q r → sameView p r.
Proof.
  intros ((g1 & t1 & n1 & s1) & f1 & o1) ((g2 & t2 & n2 & s2) & f2 & o2).
  repeat split; congruence.
Qed.

Lemma sameView_sym p q : sameView p q → sameView q p.
Proof. intros ((g1 & t1 & n1 & s1) & f1 & o1). repeat split; congruence. Qed.

(** Reading on both sides keeps two objects alike. *)
Lemma sameView_read p q p1 q1 :
  sameView p q → readOnly p p1 → readOnly q q1 → sameView p1 q1.
Proof.
  intros Hpq Hp%readOnly_sameView Hq%readOnly_sameView.
  eapply sameView_trans; [apply sameView_sym, Hp|].
  eapply sameView_trans; [exact Hpq|exact Hq].
Qed.

Lemma computeFirstOf_sameView symbols p q :
  sameView p q → (computeFirstOf symbols q).1 = (computeFirstOf symbols p).1.
Proof. intros ((_ & t & _) & f & _). by apply computeFirstOf_ext. Qed.

Lemma computeFollowOf_rhs_ext nonTerminal ruleLhs symbols follow p q :
  sameView p q →
  (computeFollowOf_rhs nonTerminal ruleLhs symbols follow q).1 =
    (computeFollowOf_rhs nonTerminal ruleLhs symbols follow p).1.
Proof.
  revert follow p q. induction symbols as [|sym suffix IH]; intros follow p q Hpq; [done|].
  cbn [computeFollowOf_rhs]. case_decide; [|by apply IH].
  destruct suffix as [|next suffix'].
  - unfold index_followSet. cbv beta iota zeta. destruct Hpq as (_ & _ & Ho).
    unfold sameFOLLOW, FOLLOW in Ho. by rewrite Ho.
  - pose proof (computeFirstOf_sameView (next :: suffix') p q Hpq) as HF.
    pose proof (computeFirstOf_readOnly (next :: suffix') p) as Hrp.
    pose proof (computeFirstOf_readOnly (next :: suffix') q) as Hrq.
    destruct (computeFirstOf (next :: suffix') p) as [F p1].
    destruct (computeFirstOf (next :: suffix') q) as [F' q1].
    simpl in HF, Hrp, Hrq. subst F'.
    pose proof (sameView_read _ _ _ _ Hpq Hrp Hrq) as Hpq1.
    case_decide; [|by apply IH].
    unfold index_followSet. cbv beta iota zeta.
    destruct Hpq1 as (Hd & Hf & Ho). unfold sameFOLLOW, FOLLOW in Ho. rewrite Ho.
    apply IH.
    eapply (sameView_read p1 q1); [done| |];
      [apply (index_followSet_readOnly p1 ruleLhs)|apply (index_followSet_readOnly q1 ruleLhs)].
Qed.

Lemma computeFollowOf_rules_ext nonTerminal rules follow p q :
  sameView p q →
  (computeFollowOf_rules nonTerminal rules follow q).1 =
    (computeFollowOf_rules nonTerminal rules follow p).1.
Proof.
  revert follow p q. induction rules as [|rule rules IH]; intros follow p q Hpq; [done|].
  simpl.
  pose proof (computeFollowOf_rhs_ext nonTerminal (lhs rule) (rhs rule) follow p q Hpq)
    as Hrhs.
  pose proof (computeFollowOf_rhs_readOnly nonTerminal (lhs rule) (rhs rule) follow p)
    as Hrp.
  pose proof (computeFollowOf_rhs_readOnly nonTerminal (lhs rule) (rhs rule) follow q)
    as Hrq.
  destruct (computeFollowOf_rhs nonTerminal (lhs rule) (rhs rule) follow p) as [f1 p1].
  destruct (computeFollowOf_rhs nonTerminal (lhs rule) (rhs rule) follow q) as [f1' q1].
  simpl in Hrhs, Hrp, Hrq. subst f1'. apply IH. by eapply sameView_read.
Qed.

Lemma computeFollowOf_ext nonTerminal p q :
  sameView p q → (computeFollowOf nonTerminal q).1 = (computeFollowOf nonTerminal p).1.
Proof.
  intros Hpq. unfold computeFollowOf. destruct Hpq as ((g & t & n & s) & Hf & Ho).
  rewrite g, s. apply computeFollowOf_rules_ext. by repeat split.
Qed.

(** What an occurrence of [B] in a right-hand side brings to the result of
    [computeFollowOf]. *)
Lemma computeFollowOf_rhs_contains B ruleLhs pre β follow p0 p :
  sameView p0 p →
  let R := (computeFollowOf_rhs B ruleLhs (pre ++ B :: β) follow p).1 in
  (β ≠ [] → (computeFirstOf β p0).1 ⊆ R) ∧
  (β = [] ∨ epsilon ∈ (computeFirstOf β p0).1 → FOLLOW p0 ruleLhs ⊆ R).
Proof.
  cbv zeta. revert follow p. induction pre as [|x pre IH]; intros follow p Hp.
  - cbn [app computeFollowOf_rhs]. rewrite decide_True by done.
    destruct β as [|next β'].
    + unfold index_followSet. cbv beta iota zeta. simpl.
      destruct Hp as (_ & _ & Ho). unfold sameFOLLOW, FOLLOW in *.
      split; [done|]. intros _. rewrite Ho.
      pose proof (computeFollowOf_rhs_keeps B ruleLhs []
                    (follow ∪ stored (followSet p0) ruleLhs)
                    (set_followSet (λ m, touch m ruleLhs) p)) as Hkeep.
      clear -Hkeep. set_solver.
    + pose proof (computeFirstOf_sameView (next :: β') p0 p Hp) as HF.
      pose proof (computeFirstOf_readOnly (next :: β') p) as Hro.
      destruct (computeFirstOf (next :: β') p) as [F p1]. simpl in HF, Hro.
      rewrite <- HF. destruct Hp as (_ & _ & Ho). destruct Hro as (_ & _ & Ho1 & _).
      unfold sameFOLLOW, FOLLOW in *.
      case_decide as Heps.
      * unfold index_followSet. cbv beta iota zeta.
        pose proof (computeFollowOf_rhs_keeps B ruleLhs (next :: β')
                      (follow ∪ F ∪ stored (followSet p1) ruleLhs)
                      (set_followSet (λ m, touch m ruleLhs) p1)) as Hkeep.
        rewrite Ho1, Ho in Hkeep |- *. clear -Hkeep. split; intros _; set_solver.
      * pose proof (computeFollowOf_rhs_keeps B ruleLhs (next :: β') (follow ∪ F) p1)
          as Hkeep.
        split; [intros _; clear -Hkeep; set_solver|]. intros [?|?]; done.
  - change ((x :: pre) ++ B :: β) with (x :: (pre ++ B :: β)).
    cbn [computeFollowOf_rhs]. case_decide; [|by apply IH].
    destruct (pre ++ B :: β) as [|next rest] eqn:Hrest; [by destruct pre|].
    pose proof (computeFirstOf_readOnly (next :: rest) p) as Hro.
    destruct (computeFirstOf (next :: rest) p) as [F p1]. simpl in Hro.
    pose proof (sameView_trans _ _ _ Hp (readOnly_sameView _ _ Hro)) as Hp1.
    case_decide; [|by apply IH].
    unfold index_followSet. cbv beta iota zeta. apply IH.
    eapply sameView_trans; [exact Hp1|].
    apply readOnly_sameView, (index_followSet_readOnly p1 ruleLhs).
Qed.

Lemma computeFollowOf_rules_contains B rules rule pre β follow p0 p :
  sameView p0 p → rule ∈ rules → rhs rule = pre ++ B :: β →
  let R := (computeFollowOf_rules B rules follow p).1 in
  (β ≠ [] → (computeFirstOf β p0).1 ⊆ R) ∧
  (β = [] ∨ epsilon ∈ (computeFirstOf β p0).1 → FOLLOW p0 (lhs rule) ⊆ R).
Proof.
  cbv zeta. intros Hp Hin Hrhs. revert follow p Hp.
  induction rules as [|r rules IH]; intros follow p Hp; [by apply elem_of_nil in Hin|].
  simpl.
  pose proof (computeFollowOf_rhs_readOnly B (lhs r) (rhs r) follow p) as Hro.
  pose proof (computeFollowOf_rhs_contains B (lhs r) pre β follow p0 p Hp) as Hhere.
  apply elem_of_cons in Hin as [<-|Hin].
  - rewrite Hrhs. cbv zeta in Hhere.
    destruct (computeFollowOf_rhs B (lhs rule) (pre ++ B :: β) follow p) as [f1 p1].
    simpl in *. pose proof (computeFollowOf_rules_keeps B rules f1 p1).
    destruct Hhere as (H1 & H2). split; intros H'; [specialize (H1 H')|specialize (H2 H')];
      set_solver.
  - destruct (computeFollowOf_rhs B (lhs r) (rhs r) follow p) as [f1 p1]. simpl in *.
    apply IH; [done|]. eapply sameView_trans; [exact Hp|by apply readOnly_sameView].
Qed.

(** Lines 146-148. *)
Lemma computeFollow_symbol_flag sym p :
  (computeFollow_symbol sym p).2 =
    if decide (sym ∈ nonTerminals p)
    then bool_decide (size (FOLLOW p sym) <
                      size (FOLLOW p sym ∪ (computeFollowOf sym p).1))
    else false.
Proof.
  unfold computeFollow_symbol. case_decide; [|done].
  pose proof (computeFollowOf_readOnly sym p) as (_ & _ & Ho & _).
  destruct (computeFollowOf sym p) as [followOfRHS p1]. simpl in *.
  unfold sameFOLLOW, FOLLOW in *. simpl.
  by rewrite stored_insert, decide_True, !stored_touch, !Ho by done.
Qed.

Lemma computeFollow_symbol_still sym p :
  (computeFollow_symbol sym p).2 = false →
  sameFOLLOW p (computeFollow_symbol sym p).1 ∧
  (sym ∈ nonTerminals p → (computeFollowOf sym p).1 ⊆ FOLLOW p sym).
Proof.
  rewrite computeFollow_symbol_flag. intros Hflag.
  assert (sym ∈ nonTerminals p →
          FOLLOW p sym ∪ (computeFollowOf sym p).1 = FOLLOW p sym) as Hsame.
  { intros Hnt. rewrite decide_True in Hflag by done.
    apply bool_decide_eq_false in Hflag.
    symmetry. apply set_subseteq_size_eq; [set_solver|lia]. }
  split.
  - intros k. rewrite computeFollow_symbol_FOLLOW.
    destruct (decide (sym ∈ nonTerminals p ∧ sym = k)) as [(Hnt & <-)|]; [|done].
    by apply Hsame.
  - intros Hnt. specialize (Hsame Hnt). set_solver.
Qed.

Lemma sameFOLLOW_trans p q r : sameFOLLOW p q → sameFOLLOW q r → sameFOLLOW p r.
Proof. intros H1 H2 k. by rewrite H2. Qed.

Lemma computeFollow_rhs_still symbols p changed :
  (computeFollow_rhs symbols p changed).2 = false →
  changed = false ∧
  sameView p (computeFollow_rhs symbols p changed).1 ∧
  ∀ sym, sym ∈ symbols → sym ∈ nonTerminals p →
         (computeFollowOf sym p).1 ⊆ FOLLOW p sym.
Proof.
  revert p changed. induction symbols as [|sym symbols IH]; intros p changed; simpl.
  - intros ->. split; [done|]. split; [apply sameView_refl|].
    intros s Hin. by apply elem_of_nil in Hin.
  - pose proof (computeFollow_symbol_still sym p) as Hstill.
    pose proof (computeFollow_symbol_grows ∅ sym p) as (Hd & Hf & _).
    destruct (computeFollow_symbol sym p) as [p1 grew]. simpl in *.
    intros (Hflag & Hview & Hclosed)%IH.
    destruct grew; [done|]. destruct (Hstill eq_refl) as (Hsame1 & Hhere).
    assert (sameView p p1) as Hpp1 by done.
    split; [done|]. split; [by eapply sameView_trans|].
    intros s [->|Hin]%elem_of_cons Hnt; [by apply Hhere|].
    rewrite <- (computeFollowOf_ext s p p1), <- (Hsame1 s) by done.
    apply Hclosed; [done|]. destruct Hd as (_ & _ & n & _). by rewrite n.
Qed.

Lemma computeFollow_rules_still rules p changed :
  (computeFollow_rules rules p changed).2 = false →
  changed = false ∧
  sameView p (computeFollow_rules rules p changed).1 ∧
  ∀ sym, sym ∈ rules ≫= rhs → sym ∈ nonTerminals p →
         (computeFollowOf sym p).1 ⊆ FOLLOW p sym.
Proof.
  revert p changed. induction rules as [|rule rules IH]; intros p changed; simpl.
  - intros ->. split; [done|]. split; [apply sameView_refl|].
    intros s Hin. by apply elem_of_nil in Hin.
  - pose proof (computeFollow_rhs_still (rhs rule) p changed) as Hstill.
    destruct (computeFollow_rhs (rhs rule) p changed) as [p1 changed1]. simpl in *.
    intros (Hflag & Hview & Hclosed)%IH.
    destruct (Hstill Hflag) as (Hc & Hpp1 & Hhere).
    split; [done|]. split; [by eapply sameView_trans|].
    intros s [Hin|Hin]%elem_of_app Hnt; [by apply Hhere|].
    destruct Hpp1 as (Hd & Hf & Ho).
    rewrite <- (computeFollowOf_ext s p p1), <- (Ho s) by done.
    apply Hclosed; [done|]. destruct Hd as (_ & _ & n & _). by rewrite n.
Qed.

(** The last pass of a run leaves an object in which every nonterminal
    occurrence has what [computeFollowOf] gives for it. *)
Lemma followRun_closed K p q sym :
  followRun K p q → sym ∈ rhsSymbols q → sym ∈ nonTerminals q →
  (computeFollowOf sym q).1 ⊆ FOLLOW q sym.
Proof.
  induction 1 as [p q Hpass|K p p' q Hpass _ IH]; [|done].
  intros Hsym Hnt.
  pose proof (computeFollow_rules_still (grammar p) p false) as Hstill.
  unfold computeFollow_pass in *. rewrite Hpass in *. simpl in *.
  destruct (Hstill eq_refl) as (_ & Hview & Hclosed).
  pose proof Hview as ((g & _ & n & _) & _ & Ho).
  rewrite (computeFollowOf_ext sym p q), (Ho sym) by done.
  unfold rhsSymbols in Hsym. rewrite g in Hsym. rewrite n in Hnt. by apply Hclosed.
Qed.

(** X14: when [computeFollow] returns, the stored FOLLOW sets are closed
    under the rules as lines 116-133 read them: for every occurrence of a
    nonterminal [B] in a right-hand side [pre ++ B :: β] of a rule, FOLLOW
    of [B] holds all of what [computeFirstOf] gives for a non-empty [β] (the
    epsilon marker included, if it is there), and it holds FOLLOW of the
    left-hand side when [β] is empty or [computeFirstOf β] has the epsilon
    marker. *)
Theorem computeFollow_closed (fuel : nat) (p q : LL1Parser) (rule : GrammarRule)
    (pre : list string) (B : string) (β : list string) :
  computeFollow fuel p = Some q →
  rule ∈ grammar q → rhs rule = pre ++ B :: β → B ∈ nonTerminals q →
  (β ≠ [] → (computeFirstOf β q).1 ⊆ FOLLOW q B) ∧
  (β = [] ∨ epsilon ∈ (computeFirstOf β q).1 → FOLLOW q (lhs rule) ⊆ FOLLOW q B).
Proof.
  intros (K & _ & Hrun)%computeFollow_Some_followRun Hrule Hrhs Hnt.
  assert ((computeFollowOf B q).1 ⊆ FOLLOW q B) as Hclosed.
  { eapply followRun_closed; [done| |done].
    unfold rhsSymbols. apply list_elem_of_bind. exists rule. split; [|done].
    rewrite Hrhs. set_solver. }
  pose proof (computeFollowOf_rules_contains B (grammar q) rule pre β
                (if decide (B = startSymbol q) then {[endMarker]} else ∅)
                q q (sameView_refl q) Hrule Hrhs) as (H1 & H2).
  fold (computeFollowOf B q) in H1, H2.
  split; intros H'; [specialize (H1 H')|specialize (H2 H')]; set_solver.
Qed.

Lemma computeFollow_closed_witness :
  let p := default newParser (computeFirst 3 (loadGrammar grammar_nullable newParser)) in
  let q := default newParser (computeFollow 2 p) in
  (computeFirstOf ["b"] q).1 ⊆ FOLLOW q "A".
Proof.
  intros p q.
  refine (proj1 (computeFollow_closed 2 p q (mkRule "S" ["A"; "b"]) [] "A" ["b"]
                   _ _ _ _) _).
  - vm_compute. reflexivity.
  - by_evaluation.
  - reflexivity.
  - by_evaluation.
  - discriminate.
Defined.

(** X15: when [computeFollow] returns from an object whose start symbol is a
    nonterminal and occurs on the right-hand side of some rule, the FOLLOW
    set of the start symbol holds the end marker. *)
Theorem computeFollow_start_on_rhs (fuel : nat) (p q : LL1Parser) :
  computeFollow fuel p = Some q →
  startSymbol p ∈ nonTerminals p → startSymbol p ∈ rhsSymbols p →
  endMarker ∈ FOLLOW q (startSymbol q).
Proof.
  intros (K & _ & Hrun)%computeFollow_Some_followRun. by eapply followRun_start_on_rhs.
Qed.

Lemma computeFollow_start_on_rhs_witness :
  let p := loadGrammar (fileOf ["S -> a S"; "S -> b"]) newParser in
  let q := default newParser (computeFollow 2 p) in
  endMarker ∈ FOLLOW q (startSymbol q).
Proof.
  intros p q. apply (computeFollow_start_on_rhs 2 p q).
  - vm_compute. reflexivity.
  - by_evaluation.
  - by_evaluation.
Defined.

(** ** [buildParseTable] (lines 156-171) *)

Lemma lastClaim_Some p rules N t rule :
  lastClaim p rules N t = Some rule → rule ∈ rules ∧ claims p rule N t.
Proof.
  induction rules as [|r rules IH]; simpl; [done|].
  destruct (lastClaim p rules N t) as [later|].
  - intros [= ->]. destruct (IH eq_refl). split; [set_solver|done].
  - case_decide; [|done]. intros [= ->]. split; [set_solver|done].
Qed.

Lemma claims_ext p q rule N t : sameSets p q → claims q rule N t ↔ claims p rule N t.
Proof. intros Hpq. unfold claims. by rewrite (tableEntries_ext p q rule). Qed.

Lemma lastClaim_ext p q rules N t :
  sameSets p q → lastClaim q rules N t = lastClaim p rules N t.
Proof.
  intros Hpq. induction rules as [|r rules IH]; simpl; [done|]. rewrite IH.
  destruct (lastClaim p rules N t); [done|].
  pose proof (claims_ext p q r N t Hpq).
  destruct (decide (claims q r N t)) as [c|c], (decide (claims p r N t)) as [d|d];
    try done; exfalso; tauto.
Qed.

Lemma buildParseTable_rules_lookup p0 rules p N t :
  sameSets p0 p →
  parseTable (foldl buildParseTable_rule p rules) !! (N, t) =
    match lastClaim p0 rules N t with
    | Some rule => Some rule
    | None => parseTable p !! (N, t)
    end.
Proof.
  revert p. induction rules as [|r rules IH]; intros p Hp; simpl; [done|].
  destruct (buildParseTable_rule_spec p r) as (_ & Hp1 & Hlook).
  rewrite IH by eauto using sameSets_trans.
  destruct (lastClaim p0 rules N t); [done|].
  rewrite Hlook. simpl. pose proof (claims_ext p0 p r N t Hp) as Hclaims.
  unfold claims in Hclaims at 1.
  destruct (decide (claims p0 r N t)) as [c|c],
           (decide (N = lhs r ∧ t ∈ tableEntries p r)) as [(a1 & a2)|n]; try done.
  - exfalso. apply Hclaims in c as (c1 & c2). by apply n.
  - exfalso. apply c, Hclaims. by split.
Qed.

(** X16: when [buildParseTable] is done, the entry under each key is the
    last rule of the grammar that claims the key (its left-hand side is the
    nonterminal of the key and the lookahead is in FIRST of its right-hand
    side, epsilon apart, or in FOLLOW of its left-hand side when that FIRST
    has epsilon); a key that no rule claims keeps the entry it had, none in
    a table that was empty. *)
Theorem buildParseTable_lookup (p : LL1Parser) (N t : string) :
  parseTable (buildParseTable p) !! (N, t) =
    match lastClaim p (grammar p) N t with
    | Some rule => Some rule
    | None => parseTable p !! (N, t)
    end.
Proof. apply buildParseTable_rules_lookup. by repeat split. Qed.

Lemma buildParseTable_entry p N t rule :
  parseTable p = ∅ →
  parseTable (buildParseTable p) !! (N, t) = Some rule →
  rule ∈ grammar p ∧ lhs rule = N ∧ t ∈ tableEntries p rule.
Proof.
  intros Hempty. unfold buildParseTable.
  rewrite (buildParseTable_rules_lookup p) by (by repeat split).
  destruct (lastClaim p (grammar p) N t) as [r|] eqn:Hlast.
  - intros [= ->]. apply lastClaim_Some in Hlast as (? & ? & ?). done.
  - by rewrite Hempty, lookup_empty.
Qed.

(** X17: every entry of the table that [buildParseTable] fills from an empty
    one is a rule of the grammar whose left-hand side is the nonterminal of
    the key and whose lookaheads, as lines 158-169 compute them, include the
    lookahead of the key. *)
Theorem buildParseTable_sound (p : LL1Parser) (N t : string) (rule : GrammarRule) :
  parseTable p = ∅ →
  parseTable (buildParseTable p) !! (N, t) = Some rule →
  rule ∈ grammar p ∧ lhs rule = N ∧ t ∈ tableEntries p rule.
Proof. apply buildParseTable_entry. Qed.

Lemma buildParseTable_sound_witness :
  mkRule "S" ["a"; "b"] ∈ grammar sets_conflict ∧
  "a" ∈ tableEntries sets_conflict (mkRule "S" ["a"; "b"]).
Proof.
  destruct (buildParseTable_sound sets_conflict "S" "a" (mkRule "S" ["a"; "b"]))
    as (Hin & _ & Ht).
  - vm_compute. reflexivity.
  - vm_compute. reflexivity.
  - split; [exact Hin|exact Ht].
Defined.

Lemma buildParseTable_sameSets p :
  sameData p (buildParseTable p) ∧ sameSets p (buildParseTable p).
Proof. apply buildParseTable_rules_sameSets. Qed.

(** X18: building the table a second time changes nothing: the table of
    [buildParseTable (buildParseTable p)] is that of [buildParseTable p],
    and [buildParseTable] leaves the grammar, the sets of symbols, the
    start symbol and the stored FIRST and FOLLOW sets as they are. *)
Theorem buildParseTable_idempotent (p : LL1Parser) :
  parseTable (buildParseTable (buildParseTable p)) = parseTable (buildParseTable p) ∧
  sameView p (buildParseTable p).
Proof.
  destruct (buildParseTable_sameSets p) as (Hd & Hs).
  split; [|by destruct Hs as (_ & ? & ?)].
  apply map_eq. intros [N t].
  unfold buildParseTable at 1.
  rewrite (buildParseTable_rules_lookup (buildParseTable p)) by (by repeat split).
  destruct Hd as (g & _). rewrite g, (lastClaim_ext p) by done.
  unfold buildParseTable.
  rewrite (buildParseTable_rules_lookup p) by (by repeat split).
  by destruct (lastClaim p (grammar p) N t).
Qed.

(** ** [parseTokens] (lines 174-214) *)

Lemma pushAll_app l1 l2 parseStack :
  pushAll (l1 ++ l2) parseStack = pushAll l2 (pushAll l1 parseStack).
Proof.
  revert parseStack. induction l1 as [|x l1 IH]; intros parseStack; simpl; [done|].
  apply IH.
Qed.

(** Lines 208-210 leave the right-hand side on the stack, its first symbol
    on top, its epsilon markers left out. *)
Lemma pushAll_rev symbols parseStack :
  pushAll (rev symbols) parseStack = strip symbols ++ parseStack.
Proof.
  unfold strip. induction symbols as [|x symbols IH]; simpl; [done|].
  rewrite pushAll_app, IH. simpl. rewrite filter_cons. by case_decide.
Qed.

Lemma parseStep_pushes_rhs p input top below index tok rule :
  input !! index = Some tok → top ≠ type tok → isTerminal p top = false →
  parseTable p !! (top, type tok) = Some rule →
  parseStep p input (top :: below) index =
    Continue (strip (rhs rule) ++ below) index.
Proof.
  intros Htok Hne Hterm Hrule. unfold parseStep. rewrite Htok. simpl.
  rewrite (decide_False (P := top = "$" ∧ type tok = "$")) by naive_solver.
  rewrite (decide_False (P := top = type tok)) by done.
  by rewrite Hterm, Hrule, pushAll_rev.
Qed.

(** X19: the round that finds a nonterminal on the stack and an entry for it
    and the current token replaces the top of the stack by the right-hand
    side of the entry, first symbol on top and epsilon markers left out, and
    stays on the same token. *)
Theorem parseStep_expand (p : LL1Parser) (input : list Token) (top : string)
    (below : list string) (index : nat) (tok : Token) (rule : GrammarRule) :
  input !! index = Some tok → top ≠ type tok → isTerminal p top = false →
  parseTable p !! (top, type tok) = Some rule →
  parseStep p input (top :: below) index =
    Continue (strip (rhs rule) ++ below) index.
Proof. apply parseStep_pushes_rhs. Qed.

Lemma parseStep_expand_witness :
  parseStep table_S_aB [mkToken 1 "a" "a"; endToken] ["S"; "$"] 0 =
    Continue ["a"; "B"; "$"] 0.
Proof.
  apply (parseStep_expand table_S_aB [mkToken 1 "a" "a"; endToken] "S" ["$"] 0
           (mkToken 1 "a" "a") (mkRule "S" ["a"; "B"])).
  - reflexivity.
  - discriminate.
  - vm_compute. reflexivity.
  - vm_compute. reflexivity.
Defined.

(** X20: on a stream whose first token has a line that is not negative and a
    literal other than "$", [parseTokens] reads no element outside of its
    vector, whatever the grammar, the table and the other tokens. *)
Theorem parseTokens_in_bounds (fuel : nat) (p : LL1Parser) (tok : Token)
    (tokens : list Token) :
  plainToken tok → parseTokens fuel p (tok :: tokens) ≠ Some OutOfBounds.
Proof.
  intros Hplain Hrun.
  apply parseLoop_out_of_bounds in Hrun as (_ & first & Hfirst & Hnot); [|simpl; lia].
  simpl in Hfirst. by injection Hfirst as <-.
Qed.

Lemma parseTokens_in_bounds_witness :
  parseTokens 10 table_S_aB [mkToken 1 "c" "c"] ≠ Some OutOfBounds.
Proof.
  apply parseTokens_in_bounds. split; [simpl; lia|discriminate].
Defined.










(** *** Left recursion *)

Lemma parseLoop_left_recursion p input top index tok rule :
  input !! index = Some tok → top ≠ type tok → isTerminal p top = false →
  parseTable p !! (top, type tok) = Some rule →
  head (strip (rhs rule)) = Some top →
  ∀ fuel below, parseLoop fuel p input (top :: below) index = None.
Proof.
  intros Htok Hne Hterm Hrule Hhead fuel.
  induction fuel as [|fuel IH]; intros below; [done|]. cbn [parseLoop].
  rewrite (parseStep_pushes_rhs p input top below index tok rule) by done.
  destruct (strip (rhs rule)) as [|first rest]; [done|].
  injection Hhead as ->. apply IH.
Qed.

(** X23: when the entry for the nonterminal on top of the stack and the
    current token is a rule whose right-hand side begins, epsilon markers
    apart, with that nonterminal itself, the loop of [parseTokens] never
    ends: it puts the nonterminal back on top without reading a token, and
    the stack grows by the rest of the right-hand side at each round. *)
Theorem parseTokens_left_recursion_diverges (p : LL1Parser) (tok : Token)
    (tokens : list Token) (rule : GrammarRule) (fuel : nat) :
  startSymbol p ≠ type tok → isTerminal p (startSymbol p) = false →
  parseTable p !! (startSymbol p, type tok) = Some rule →
  head (strip (rhs rule)) = Some (startSymbol p) →
  parseTokens fuel p (tok :: tokens) = None.
Proof.
  intros Hne Hterm Hrule Hhead. unfold parseTokens.
  by apply (parseLoop_left_recursion p _ (startSymbol p) 0 tok rule).
Qed.

Lemma parseTokens_left_recursion_diverges_witness :
  parseTokens 100 table_left_recursive [mkToken 1 "a" "a"] = None.
Proof.
  apply (parseTokens_left_recursion_diverges table_left_recursive (mkToken 1 "a" "a") []
           (mkRule "S" ["S"; "a"]) 100).
  - discriminate.
  - vm_compute. reflexivity.
  - vm_compute. reflexivity.
  - vm_compute. reflexivity.
Defined.

(** *** A token of type "$" ends the reading *)

Lemma parseStep_agree p input1 input2 n parseStack index :
  (∀ i, i ≤ n → input1 !! i = input2 !! i) → index ≤ n →
  parseStep p input1 parseStack index = parseStep p input2 parseStack index.
Proof.
  intros Hagree Hle. unfold parseStep. destruct parseStack as [|top below]; [done|].
  rewrite (Hagree index) by done.
  assert (previousToken input1 index = previousToken input2 index) as ->; [|done].
  destruct index as [|i]; [done|]. simpl. apply Hagree. lia.
Qed.

Lemma parseStep_shift_not_end p input parseStack index parseStack' tok :
  input !! index = Some tok → type tok = "$" →
  parseStep p input parseStack index = Continue parseStack' (S index) → False.
Proof.
  intros Htok Htype. unfold parseStep. destruct parseStack as [|top below]; [done|].
  rewrite Htok. simpl. rewrite Htype.
  destruct (decide (top = "$" ∧ "$" = "$")) as [|Hacc]; [done|].
  destruct (decide (top = "$")) as [->|_]; [naive_solver|].
  destruct (isTerminal p top); [done|].
  destruct (parseTable p !! (top, "$")); [intros [= _ Hindex]; lia|].
  by repeat (case_decide || case_match).
Qed.

Lemma parseStep_index p input parseStack index parseStack' index' :
  parseStep p input parseStack index = Continue parseStack' index' →
  index' = index ∨ index' = S index.
Proof.
  unfold parseStep. destruct parseStack as [|top below]; [done|].
  destruct (input !! index) as [tok|]; [|done]. simpl.
  repeat (case_decide || case_match); try done; intros [= _ <-]; auto.
Qed.

Lemma parseLoop_agree fuel p input1 input2 n tok parseStack index :
  (∀ i, i ≤ n → input1 !! i = input2 !! i) →
  input1 !! n = Some tok → type tok = "$" → index ≤ n →
  parseLoop fuel p input1 parseStack index = parseLoop fuel p input2 parseStack index.
Proof.
  intros Hagree Htok Htype. revert parseStack index.
  induction fuel as [|fuel IH]; intros parseStack index Hle; [done|]. cbn [parseLoop].
  rewrite <- (parseStep_agree p input1 input2 n) by done.
  destruct (parseStep p input1 parseStack index) as [s i|r] eqn:Hstep; [|done].
  apply IH. destruct (parseStep_index _ _ _ _ _ _ Hstep) as [->| ->]; [done|].
  destruct (decide (index = n)) as [->|]; [|lia].
  by destruct (parseStep_shift_not_end _ _ _ _ _ _ Htok Htype Hstep).
Qed.

(** X24: [parseTokens] looks at no token after the first token of type "$":
    two streams that are the same up to a token of that type give the same
    result, whatever comes after it in either. *)
Theorem parseTokens_stops_at_end_marker (fuel : nat) (p : LL1Parser)
    (before : list Token) (tok : Token) (after after' : list Token) :
  type tok = "$" →
  parseTokens fuel p (before ++ tok :: after) =
    parseTokens fuel p (before ++ tok :: after').
Proof.
  intros Htype. unfold parseTokens.
  apply (parseLoop_agree fuel p _ _ (length before) tok); [|rewrite <- app_assoc; simpl; by rewrite list_lookup_middle|done|lia].
  intros i Hi. rewrite <- !app_assoc. simpl.
  destruct (decide (i = length before)) as [->|].
  - by rewrite !list_lookup_middle.
  - by rewrite !lookup_app_l by lia.
Qed.

Lemma parseTokens_stops_at_end_marker_witness :
  parseTokens 10 table_S_aB [mkToken 1 "a" "a"; mkToken 1 "$" "x"; mkToken 2 "b" "b"] =
    parseTokens 10 table_S_aB [mkToken 1 "a" "a"; mkToken 1 "$" "x"].
Proof.
  apply (parseTokens_stops_at_end_marker 10 table_S_aB [mkToken 1 "a" "a"]
           (mkToken 1 "$" "x") [mkToken 2 "b" "b"] []).
  reflexivity.
Defined.

(** *** What an accepted stream is *)

Lemma tableSound_lookup p N t rule :
  tableSound p → parseTable p !! (N, t) = Some rule → rule ∈ grammar p ∧ lhs rule = N.
Proof. intros Hsound Hrule. by apply Hsound in Hrule. Qed.

(** The types of the tokens already matched, followed by the stack, are
    derived from what the stack was at first. *)
Lemma parseLoop_accept_derives fuel p input parseStack index α errFile cout :
  tableSound p →
  derives (grammar p) α ((type <$> take index input) ++ parseStack) →
  parseLoop fuel p input parseStack index = Some (Returned true errFile cout) →
  ∃ n below tok,
    index ≤ n ∧ input !! n = Some tok ∧ type tok = "$" ∧
    derives (grammar p) α ((type <$> take n input) ++ "$" :: below).
Proof.
  intros Hsound. revert parseStack index.
  induction fuel as [|fuel IH]; intros parseStack index Hder; [done|].
  cbn [parseLoop]. unfold parseStep.
  destruct parseStack as [|top below]; [done|].
  destruct (input !! index) as [tok|] eqn:Htok; [|done]. simpl.
  destruct (decide (top = "$" ∧ type tok = "$")) as [(-> & Htype)|Hacc].
  { intros _. by exists index, below, tok. }
  destruct (decide (top = type tok)) as [Heq|Hne].
  { intros Hrun. apply IH in Hrun as (n & below' & tok' & Hle & ?).
    - exists n, below', tok'. split; [lia|done].
    - rewrite (take_S_r _ _ _ Htok), fmap_app, <- app_assoc. simpl. by rewrite <- Heq. }
  destruct (isTerminal p top); [done|].
  destruct (parseTable p !! (top, type tok)) as [rule|] eqn:Hrule.
  - intros Hrun. apply IH in Hrun; [done|]. rewrite pushAll_rev.
    destruct (tableSound_lookup _ _ _ _ Hsound Hrule) as (Hin & Hlhs).
    eapply derives_step; [exact Hder|exact Hin|exact Hlhs].
  - destruct (decide (line tok < 0)%Z), (decide (value tok = "$")),
      (previousToken input index); simpl; done.
Qed.

(** X25: with a table whose entries are rules of the grammar for the
    nonterminal of their key, a call of [parseTokens] that returns true has
    stopped on a token of type "$" (the appended one or an earlier one),
    and the types of the tokens before it, followed by the end marker and
    by what is left of the stack under it, are derived from the start
    symbol followed by the end marker, by the rules of the grammar. *)
Theorem parseTokens_accept_derives (fuel : nat) (p : LL1Parser) (tokens : list Token)
    (errFile cout : string) :
  tableSound p →
  parseTokens fuel p tokens = Some (Returned true errFile cout) →
  ∃ n below tok,
    n ≤ length tokens ∧ (tokens ++ [endToken]) !! n = Some tok ∧ type tok = "$" ∧
    derives (grammar p) [startSymbol p; "$"]
            ((type <$> take n tokens) ++ "$" :: below).
Proof.
  intros Hsound Hrun. unfold parseTokens in Hrun.
  apply (parseLoop_accept_derives _ _ _ _ _ [startSymbol p; "$"]) in Hrun
    as (n & below & tok & _ & Htok & Htype & Hder); [|done|apply derives_refl].
  assert (n ≤ length tokens) as Hle.
  { apply lookup_lt_Some in Htok. rewrite length_app in Htok. simpl in Htok. lia. }
  exists n, below, tok. split; [done|]. split; [done|]. split; [done|].
  by rewrite take_app_le in Hder.
Qed.

Lemma parseTokens_accept_derives_witness :
  ∃ n below tok,
    n ≤ 2 ∧
    ([mkToken 1 "a" "a"; mkToken 1 "b" "b"] ++ [endToken]) !! n = Some tok ∧
    type tok = "$" ∧
    derives (grammar table_S_aB) [startSymbol table_S_aB; "$"]
            ((type <$> take n [mkToken 1 "a" "a"; mkToken 1 "b" "b"]) ++ "$" :: below).
Proof.
  apply (parseTokens_accept_derives 10 table_S_aB
           [mkToken 1 "a" "a"; mkToken 1 "b" "b"] "" ("YES" +:+ nl)).
  - by_evaluation.
  - vm_compute. reflexivity.
Defined.

(** ** The pipeline of [main] *)

Lemma classify_fold_maps symbols p :
  let p' := foldl (λ p sym, classify sym p) p symbols in
  firstSet p' = firstSet p ∧ followSet p' = followSet p ∧ parseTable p' = parseTable p.
Proof.
  cbv zeta. revert p. induction symbols as [|sym symbols IH]; intros p; simpl; [done|].
  destruct (IH (classify sym p)) as (-> & -> & ->).
  unfold classify. by destruct (isupper0 sym).
Qed.

(** [loadGrammar] touches neither the stored sets nor the table. *)
Lemma loadLines_maps lines p :
  firstSet (foldl loadLine p lines) = firstSet p ∧
  followSet (foldl loadLine p lines) = followSet p ∧
  parseTable (foldl loadLine p lines) = parseTable p.
Proof.
  revert p. induction lines as [|l lines IH]; intros p; simpl; [done|].
  destruct (IH (loadLine p l)) as (-> & -> & ->).
  unfold loadLine. destruct (ruleOfLine l) as [rule|]; [|done].
  unfold addRule.
  destruct (classify_fold_maps (rhs rule)
              (set_nonTerminals (λ n, {[lhs rule]} ∪ n)
                 (set_grammar (λ g, g ++ [rule]) p))) as (Hf & Ho & Ht).
  simpl in Hf, Ho, Ht. case_decide; simpl; by rewrite Hf, Ho, Ht.
Qed.







Lemma storedUnion_empty : storedUnion ∅ = ∅.
Proof. unfold storedUnion. by rewrite map_to_list_empty. Qed.

Lemma computeFirst_fuel_enough p :
  firstBounded (terminals p) p →
  ∃ q, computeFirst (firstPasses p) p = Some q ∧ firstGrows (terminals p) p q.
Proof.
  intros Hb. destruct (computeFirst_terminates p) as (K & q & Hrun).
  pose proof (firstRun_bound (terminals p) _ _ _ Hrun Hb).
  exists q. split; [|by eapply firstRun_grows].
  rewrite (firstRun_fuel _ _ _ Hrun). unfold firstPasses. by rewrite decide_True by lia.
Qed.

Lemma computeFollow_fuel_enough p :
  followBounded ({[endMarker]} ∪ terminals p) p →
  ∃ q, computeFollow (followPasses p) p = Some q.
Proof.
  intros Hb. destruct (computeFollow_terminates p) as (K & q & Hrun).
  pose proof (followRun_bound _ _ _ _ Hrun Hb).
  pose proof (size_endMarker_terminals (terminals p)).
  exists q. rewrite (followRun_fuel _ _ _ Hrun). unfold followPasses.
  by rewrite decide_True by nia.
Qed.

(** X28: the pipeline of [main] always reaches [parseTokens]: for every
    grammar file, [loadGrammar], [computeFirst], [computeFollow] and
    [buildParseTable] yield an object within a number of passes that the
    loaded grammar gives (its rules times its terminals, plus its
    right-hand side positions times its terminals and the end marker, plus
    two). *)
Theorem analyse_total (grammarFile : string) :
  is_Some (analyse (analysisFuel grammarFile) grammarFile).
Proof.
  unfold analyse, computeSets, analysisFuel.
  set (p := loadGrammar grammarFile newParser).
  destruct (loadLines_maps (getlines grammarFile) newParser) as (Hf & Ho & _).
  fold (loadGrammar grammarFile newParser) in Hf, Ho. fold p in Hf, Ho. simpl in Hf, Ho.
  assert (firstBounded (terminals p) p) as Hb.
  { split; [done|]. intros k. unfold FIRST, stored. rewrite Hf, lookup_empty. set_solver. }
  destruct (computeFirst_fuel_enough p Hb) as (p1 & Hp1 & (g & t & _) & Hsame & _ & _ & Hb1).
  rewrite (computeFirst_fuel_mono _ (firstPasses p + followPasses p) _ _ Hp1) by lia.
  simpl.
  assert (followBounded ({[endMarker]} ∪ terminals p1) p1) as Hb2.
  { destruct (Hb1 Hb) as (_ & Hfirst). rewrite t.
    split; [set_solver|]. split; [set_solver|]. split; intros k.
    - specialize (Hfirst k). set_solver.
    - rewrite Hsame. unfold FOLLOW, stored. rewrite Ho, lookup_empty. set_solver. }
  destruct (computeFollow_fuel_enough p1 Hb2) as (p2 & Hp2).
  assert (followPasses p1 = followPasses p) as Hpasses.
  { unfold followPasses, rhsSymbols. by rewrite g, t. }
  rewrite (computeFollow_fuel_mono _ (firstPasses p + followPasses p) _ _ Hp2)
    by (rewrite Hpasses; lia).
  simpl. by eexists.
Qed.

(** ** The least fixed point of [computeFirst] *)

Lemma computeFirstOf_loop_keeps symbols first p :
  first ⊆ (computeFirstOf_loop symbols first p).1.
Proof.
  revert first p. induction symbols as [|symbol symbols IH]; intros first p; simpl; [done|].
  destruct (isTerminal p symbol); simpl; [set_solver|].
  case_decide; simpl; [|set_solver]. etrans; [|apply IH]. set_solver.
Qed.

(** [computeFirstOf] gives more on an object that stores more. *)
Lemma computeFirstOf_loop_mono symbols first first' p r :
  terminals r = terminals p → FIRST_le p r → first ⊆ first' →
  (computeFirstOf_loop symbols first p).1 ⊆ (computeFirstOf_loop symbols first' r).1.
Proof.
  revert first first' p r. induction symbols as [|symbol symbols IH];
    intros first first' p r Ht Hle Hfirst; simpl; [done|].
  rewrite (isTerminal_readOnly p r) by done.
  destruct (isTerminal p symbol); simpl; [set_solver|].
  pose proof (Hle symbol) as Hsym. unfold FIRST in Hsym.
  assert (FIRST_le (set_firstSet (λ m, touch m symbol) p)
                   (set_firstSet (λ m, touch m symbol) r)) as Hle'.
  { intros k. unfold FIRST. simpl. rewrite !stored_touch. apply Hle. }
  destruct (decide (epsilon ∈ stored (firstSet p) symbol)) as [Heps|Heps]; simpl.
  - rewrite decide_True by set_solver. apply IH; [done|done|set_solver].
  - case_decide; simpl; [|set_solver].
    etrans; [|apply computeFirstOf_loop_keeps]. set_solver.
Qed.

Lemma computeFirst_rule_below rule s r :
  terminals r = terminals s → FIRST_le s r →
  (computeFirstOf (rhs rule) r).1 ⊆ FIRST r (lhs rule) →
  FIRST_le (computeFirst_rule rule s).1 r.
Proof.
  intros Ht Hle Hclosed k. rewrite computeFirst_rule_FIRST.
  pose proof (computeFirstOf_loop_mono (rhs rule) ∅ ∅ s r Ht Hle) as Hmono.
  fold (computeFirstOf (rhs rule) s) (computeFirstOf (rhs rule) r) in Hmono.
  pose proof (Hle k). pose proof (Hle (lhs rule)).
  case_decide; [subst; set_solver|done].
Qed.

Lemma computeFirst_rules_below rules s r changed :
  terminals r = terminals s → FIRST_le s r → firstClosed rules r →
  FIRST_le (computeFirst_rules rules s changed).1 r.
Proof.
  revert s changed. induction rules as [|rule rules IH]; intros s changed Ht Hle Hclosed;
    simpl; [done|].
  apply Forall_cons in Hclosed as (Hrule & Hclosed).
  pose proof (computeFirst_rule_below rule s r Ht Hle Hrule) as Hle1.
  pose proof (computeFirst_rule_terminals rule s) as Ht1.
  destruct (computeFirst_rule rule s) as [s1 grew]. simpl in *.
  apply IH; [congruence|done|done].
Qed.

Lemma firstRun_below K p q r :
  firstRun K p q →
  terminals r = terminals p → FIRST_le p r → firstClosed (grammar p) r →
  FIRST_le q r.
Proof.
  induction 1 as [p q Hpass|K p p' q Hpass _ IH]; intros Ht Hle Hclosed;
    pose proof (computeFirst_rules_below (grammar p) p r false Ht Hle Hclosed) as Hle1;
    pose proof (computeFirst_pass_grows ∅ p) as ((g & t & _) & _);
    unfold computeFirst_pass in *; rewrite Hpass in *; simpl in *; [done|].
  apply IH; [congruence|done|by rewrite g].
Qed.

Lemma firstWithin_le p r : firstWithin p r → FIRST_le p r.
Proof.
  intros Hwithin k. unfold FIRST at 1. unfold stored.
  destruct (firstSet p !! k) as [s|] eqn:Hk; simpl; [|set_solver].
  by apply (Hwithin k s).
Qed.

(** X29: the FIRST sets that [computeFirst] leaves are the least ones that
    are closed under the rules: they are within the FIRST sets of every
    object with the same terminals whose FIRST sets hold those the run
    started from and are closed under the rules of the grammar. *)
Theorem computeFirst_least (fuel : nat) (p q r : LL1Parser) :
  computeFirst fuel p = Some q →
  terminals r = terminals p → firstWithin p r → firstClosed (grammar p) r →
  FIRST_le q r.
Proof.
  intros (K & _ & Hrun)%computeFirst_Some_firstRun Ht Hwithin Hclosed.
  eapply firstRun_below; [done|done|by apply firstWithin_le|done].
Qed.

Lemma computeFirst_least_witness :
  let p := loadGrammar grammar_nullable newParser in
  let q := default newParser (computeFirst 3 p) in
  FIRST_le q (fullFirst p).
Proof.
  intros p q. apply (computeFirst_least 3 p q (fullFirst p)).
  - vm_compute. reflexivity.
  - reflexivity.
  - by_evaluation.
  - by_evaluation.
Defined.

(** ** Reading a set creates at most an empty entry *)

(** X30: [computeFirstOf] and [computeFollowOf] only read: the object they
    leave has the grammar, the terminals, the nonterminals, the start
    symbol and the table of the object they were given, and the same set
    under every symbol of [firstSet] and [followSet], the entries that
    [operator[]] created being empty. *)
Theorem reading_leaves_sets (symbols : list string) (nonTerminal : string)
    (p : LL1Parser) :
  readOnly p (computeFirstOf symbols p).2 ∧ readOnly p (computeFollowOf nonTerminal p).2.
Proof. split; [apply computeFirstOf_readOnly|apply computeFollowOf_readOnly]. Qed.
